(** * HtmlBuilder: the Element node model and its serializer

    A shallow embedding of [include/HTML/Element.h]: the [Element] class
    (name, content, attribute map, children, non-void flag), the fluent
    builder calls ([addAttribute], [operator<<]) and the three-phase
    recursive serializer ([toStringOpen], [toStringContent],
    [toStringClose]), followed by the properties of the rendered text. *)

From Stdlib Require Import String Ascii List NArith Bool Lia.
From Stdlib Require Import Sorted Permutation DecimalString DecimalPos DecimalN.
From Stdlib Require Import PeanoNat.
Import ListNotations.
Local Open Scope string_scope.
Local Open Scope N_scope.

(** ** The output stream

    [std::ostream] is a write-only sink here: the model keeps the text
    written so far, and every insertion returns the extended stream.
    The stream is taken in the state of a fresh [std::ostringstream],
    as [toString()] creates it: no pending width or fill and no error
    flag, neither of which the model carries. *)
Module Stream.

Definition ostream := string.

(** [aStream << s] for a string. *)
Definition put (aStream : ostream) (s : string) : ostream := aStream ++ s.

(** [aStream << c] for a single character. *)
Definition putc (aStream : ostream) (c : ascii) : ostream :=
  aStream ++ String c EmptyString.

(** [std::fill_n(std::ostream_iterator<char>(aStream), n, c)]. *)
Definition fill_n (aStream : ostream) (n : N) (c : ascii) : ostream :=
  N.iter n (fun s => putc s c) aStream.

(** [n] copies of [c], the text that [fill_n] appends. *)
Definition replicate (n : N) (c : ascii) : string :=
  N.iter n (String c) EmptyString.

End Stream.
Import Stream.

Infix "<<" := put (at level 50, left associativity).

(** ** [std::map<std::string, std::string>]

    The map keeps its entries ordered by [std::less<std::string>], the
    lexicographic order on the bytes of the key, and a range-for visits
    them in that order.  The model is the list of entries as iteration
    yields them. *)
Module StdMap.

Definition t := list (string * string).

Definition empty : t := [].

(** [operator<] of [std::string]. *)
Definition key_lt (a b : string) : Prop := String.compare a b = Lt.

Definition entry_lt (x y : string * string) : Prop := key_lt (fst x) (fst y).

(** [m[k] = v]: the entry of [k] is overwritten when there is one and
    inserted at its place in the key order when there is none. *)
Fixpoint set (k v : string) (m : t) : t :=
  match m with
  | [] => [(k, v)]
  | (k', v') :: m' =>
      match String.compare k k' with
      | Lt => (k, v) :: (k', v') :: m'
      | Eq => (k, v) :: m'
      | Gt => (k', v') :: set k v m'
      end
  end.

(** [m.find(k)], as the mapped value. *)
Fixpoint find (k : string) (m : t) : option string :=
  match m with
  | [] => None
  | (k', v') :: m' => if String.eqb k k' then Some v' else find k m'
  end.

(** Number of entries stored under [k]. *)
Definition count (k : string) (m : t) : nat :=
  List.length (List.filter (fun kv => String.eqb k (fst kv)) m).

(** The class invariant of [std::map]: keys strictly increasing. *)
Definition ordered (m : t) : Prop := StronglySorted entry_lt m.

End StdMap.

(** ** Integers of the source *)

(** The largest [size_t], taken as 64 bits wide. *)
Definition SIZE_MAX : N := 2 ^ 64 - 1.

(** Addition of [size_t], which wraps around. *)
Definition size_add (a b : N) : N := (a + b) mod 2 ^ 64.

(** [#define HTML_INDENTATION 2] *)
Definition HTML_INDENTATION : N := 2.

(** [std::to_string] of an [unsigned int]. *)
Definition to_string (n : N) : string :=
  NilEmpty.string_of_uint (N.to_uint n).

(** ** The [Element] class *)

#[local] Set Warnings "-register-all".

Inductive Element : Type := Build_Element {
  mName : string;
  mContent : string;
  mAttributes : StdMap.t;
  mChildren : list Element;
  mbNonVoid : bool
}.

(** [std::string::empty]. *)
Definition empty (s : string) : bool :=
  match s with EmptyString => true | String _ _ => false end.

(** [std::vector::empty]. *)
Definition vempty {A : Type} (v : list A) : bool :=
  match v with [] => true | _ :: _ => false end.

(** [Element(apName, aContent)]; a null [apContent] gives the empty
    content, the empty string being passed here in that case. *)
Definition Element_ (apName aContent : string) : Element :=
  {| mName := apName; mContent := aContent; mAttributes := StdMap.empty;
     mChildren := []; mbNonVoid := false |}.

(** [addAttribute(apName, aValue)] for a string value. *)
Definition addAttribute (apName aValue : string) (this : Element) : Element :=
  {| mName := mName this; mContent := mContent this;
     mAttributes := StdMap.set apName aValue (mAttributes this);
     mChildren := mChildren this; mbNonVoid := mbNonVoid this |}.

(** [addAttribute(apName, aValue)] for an [unsigned int] value. *)
Definition addAttribute_uint (apName : string) (aValue : N) (this : Element)
  : Element :=
  addAttribute apName (to_string aValue) this.

(** [operator<<(Element&& aElement)]: [mChildren.push_back]. *)
Definition append (this aElement : Element) : Element :=
  {| mName := mName this; mContent := mContent this;
     mAttributes := mAttributes this;
     mChildren := mChildren this ++ [aElement]; mbNonVoid := mbNonVoid this |}.

(** [Text(aContent)]: the unnamed element. *)
Definition Text (aContent : string) : Element :=
  Element_ EmptyString aContent.

(** [operator<<(const std::string& aContent)] and its two siblings. *)
Definition append_text (this : Element) (aContent : string) : Element :=
  append this (Text aContent).

(** [mbNonVoid = true] in a constructor body. *)
Definition set_non_void (this : Element) : Element :=
  {| mName := mName this; mContent := mContent this;
     mAttributes := mAttributes this;
     mChildren := mChildren this; mbNonVoid := true |}.

(** ** The serializer *)

Definition nl : string := String (ascii_of_N 10) EmptyString.
Definition space : ascii := " "%char.
Definition dquote : ascii := ascii_of_N 34.
Definition eq_dquote : string := String "="%char (String dquote EmptyString).
Definition dquote_s : string := String dquote EmptyString.

(** One attribute of the loop in [toStringOpen]. *)
Definition put_attr (aStream : ostream) (attr : string * string) : ostream :=
  let aStream := putc aStream space << fst attr in
  if negb (empty (snd attr))
  then aStream << eq_dquote << snd attr << dquote_s
  else aStream.

Definition toStringOpen (aStream : ostream) (this : Element)
  (aIndentation : N) : ostream :=
  if negb (empty (mName this)) then
    let aStream := fill_n aStream aIndentation space in
    let aStream := putc aStream "<"%char << mName this in
    let aStream := fold_left put_attr (mAttributes this) aStream in
    if empty (mContent this) then
      if mbNonVoid this then aStream << ">"
      else if negb (vempty (mChildren this)) then aStream << ">" << nl
      else aStream << "/>" << nl
    else putc aStream ">"%char
  else aStream.

Definition toStringClose (aStream : ostream) (this : Element)
  (aIndentation : N) : ostream :=
  if negb (empty (mName this)) then
    let aStream :=
      if negb (vempty (mChildren this))
      then fill_n aStream aIndentation space
      else aStream in
    if negb (empty (mContent this)) || negb (vempty (mChildren this))
       || mbNonVoid this
    then aStream << "</" << mName this << ">" << nl
    else aStream
  else aStream.

(** [toStringContent], with the recursive call to [toString] of the
    children passed in as [render]. *)
Definition toStringContent_ (render : ostream -> Element -> N -> ostream)
  (aStream : ostream) (this : Element) (aIndentation : N) : ostream :=
  if negb (empty (mName this)) then
    fold_left
      (fun aStream child =>
         render aStream child (size_add aIndentation HTML_INDENTATION))
      (mChildren this) (aStream << mContent this)
  else
    putc (fill_n aStream aIndentation space << mContent this)
         (ascii_of_N 10).

(** [toString(aStream, aIndentation)]: open, content, close. *)
Fixpoint toString_ (aStream : ostream) (this : Element) (aIndentation : N)
  {struct this} : ostream :=
  let aStream := toStringOpen aStream this aIndentation in
  let aStream := toStringContent_ toString_ aStream this aIndentation in
  toStringClose aStream this aIndentation.

(** [toStringContent] as the class has it. *)
Definition toStringContent := toStringContent_ toString_.

(** The friend [operator<<(std::ostream&, const Element&)]. *)
Definition shl_ostream (aStream : ostream) (aElement : Element) : ostream :=
  toString_ aStream aElement 0.

(** [toString() const]: a fresh stream, the element, the text. *)
Definition toString (this : Element) : string :=
  shl_ostream EmptyString this.

(** ** Specialized elements *)

(** A [const char*] argument that may be [nullptr]. *)
Definition cstr := option string.

(** The third [Element] constructor, which takes the content as a
    character pointer and reads a null one as the empty content. *)
Definition Element_c (apName : string) (apContent : cstr) : Element :=
  Element_ apName (match apContent with Some c => c | None => EmptyString end).

Definition Title (aContent : string) : Element := Element_ "title" aContent.
Definition Style (aContent : string) : Element := Element_ "style" aContent.

Definition Script (apSrc apContent : cstr) : Element :=
  let this := Element_c "script" apContent in
  match apSrc with
  | Some src => addAttribute "src" src this
  | None => this
  end.

Definition Meta (apCharset : string) : Element :=
  addAttribute "charset" apCharset (Element_c "meta" None).

Definition Meta2 (apName apContent : string) : Element :=
  addAttribute "content" apContent
    (addAttribute "name" apName (Element_c "meta" None)).

Definition Rel (apRel apUrl : string) (apType : cstr) : Element :=
  let this :=
    addAttribute "href" apUrl
      (addAttribute "rel" apRel (Element_c "link" None)) in
  match apType with
  | Some ty => addAttribute "type" ty this
  | None => this
  end.

Definition Base (aContent aUrl : string) (apTarget : cstr) : Element :=
  let this := addAttribute "href" aUrl (Element_ "base" aContent) in
  match apTarget with
  | Some target => addAttribute "target" target this
  | None => this
  end.

Definition Head : Element := Element_c "head" None.
Definition Body : Element := Element_c "body" None.

(** [Element::Element()], the constructor reserved for the root. *)
Definition Element_root : Element :=
  {| mName := "html"; mContent := EmptyString; mAttributes := StdMap.empty;
     mChildren := [Head; Body]; mbNonVoid := false |}.

Definition Break : Element := Element_c "br" None.

Definition ColHeader (apContent : cstr) : Element :=
  set_non_void (Element_c "th" apContent).

Definition Col (apContent : cstr) : Element :=
  set_non_void (Element_c "td" apContent).

Definition Row : Element := Element_c "tr" None.
Definition Table : Element := Element_c "table" None.

Definition Input (apType apName apValue apContent : cstr) : Element :=
  let this := Element_c "input" apContent in
  let this := match apType with
              | Some ty => addAttribute "type" ty this | None => this end in
  let this := match apName with
              | Some n => addAttribute "name" n this | None => this end in
  match apValue with
  | Some v => addAttribute "value" v this
  | None => this
  end.

Definition TextArea (apName : string) (aCols aRows : N) : Element :=
  let this := addAttribute "name" apName (Element_c "textarea" None) in
  let this := if 0 <? aCols then addAttribute_uint "cols" aCols this
              else this in
  let this := if 0 <? aRows then addAttribute_uint "rows" aRows this
              else this in
  set_non_void this.

Definition Option_ (apValue : string) (apContent : cstr) : Element :=
  set_non_void (addAttribute "value" apValue (Element_c "option" apContent)).

Definition Paragraph (aContent : string) : Element := Element_ "p" aContent.
Definition Div (aContent : string) : Element := Element_ "div" aContent.

(** ** What the phases write

    The text each phase appends, stated apart from the stream that
    receives it. *)

(** One attribute: a space, the name and, unless the value is empty,
    an equals sign and the value between double quotes. *)
Definition attr_text (attr : string * string) : string :=
  String space (fst attr)
  ++ (if empty (snd attr) then EmptyString
      else eq_dquote ++ snd attr ++ dquote_s).

(** The attributes in the order of the map. *)
Definition attrs_text (m : StdMap.t) : string :=
  String.concat EmptyString (map attr_text m).

(** [aIndentation] spaces. *)
Definition indent (aIndentation : N) : string :=
  replicate aIndentation space.

(** [<name attr...], the part of the opening tag before its end. *)
Definition open_tag (this : Element) : string :=
  "<" ++ mName this ++ attrs_text (mAttributes this).

(** [</name>] and the newline after it. *)
Definition close_tag (this : Element) : string :=
  "</" ++ mName this ++ ">" ++ nl.

(** The rendered blocks of a list of children, one after the other. *)
Definition blocks (children : list Element) (aIndentation : N) : string :=
  String.concat EmptyString
    (map (fun child => toString_ EmptyString child aIndentation) children).

(** The end of the opening tag. *)
Definition open_end (this : Element) : string :=
  if empty (mContent this) then
    if mbNonVoid this then ">"
    else if negb (vempty (mChildren this)) then ">" ++ nl
    else "/>" ++ nl
  else ">".

(** ** Induction on elements

    [Element] is nested through [list]; the induction hypothesis is
    wanted for every child. *)
Section ElementInduction.

Variable P : Element -> Prop.
Hypothesis step :
  forall name content attrs children nonvoid,
    Forall P children ->
    P (Build_Element name content attrs children nonvoid).

Fixpoint Element_children_ind (this : Element) : P this :=
  match this with
  | Build_Element name content attrs children nonvoid =>
      step name content attrs children nonvoid
        ((fix all (l : list Element) : Forall P l :=
            match l with
            | [] => Forall_nil P
            | x :: l' => Forall_cons x (Element_children_ind x) (all l')
            end) children)
  end.

End ElementInduction.

(** ** Chains of builder calls *)

(** The calls of the fluent interface that every element inherits. *)
Inductive BuilderCall : Type :=
| CallAddAttribute (apName aValue : string)
| CallAddAttributeUint (apName : string) (aValue : N)
| CallAppend (aElement : Element)
| CallAppendText (aContent : string).

Definition call (this : Element) (c : BuilderCall) : Element :=
  match c with
  | CallAddAttribute apName aValue => addAttribute apName aValue this
  | CallAddAttributeUint apName aValue => addAttribute_uint apName aValue this
  | CallAppend aElement => append this aElement
  | CallAppendText aContent => append_text this aContent
  end.

(** [this.c1.c2...cn], the calls applied from left to right. *)
Definition chain (this : Element) (calls : list BuilderCall) : Element :=
  fold_left call calls this.

(** A chain of [addAttribute] calls, each given as name and value. *)
Definition addAttributes (this : Element) (calls : list (string * string))
  : Element :=
  fold_left (fun e c => addAttribute (fst c) (snd c) e) calls this.

(** A chain of [operator<<] calls. *)
Definition appends (this : Element) (children : list Element) : Element :=
  fold_left append children this.

(** The value of the last call of the chain that names [name]. *)
Fixpoint last_set (name : string) (calls : list (string * string))
  : option string :=
  match calls with
  | [] => None
  | (k, v) :: calls' =>
      match last_set name calls' with
      | Some v' => Some v'
      | None => if String.eqb name k then Some v else None
      end
  end.

(** ** The elements the header can build

    [mbNonVoid] is protected and four constructors set it, those of
    [ColHeader], [Col], [TextArea] and [Option], each on an element
    whose name the constructor fixes.  Every other constructor is an
    [Element] constructor followed by [addAttribute] calls. *)

Definition non_void_names : list string := ["th"; "td"; "textarea"; "option"].

Inductive Constructed : Element -> Prop :=
| Constructed_Element (apName aContent : string) :
    Constructed (Element_ apName aContent)
| Constructed_root : Constructed Element_root
| Constructed_non_void (this : Element) :
    Constructed this -> In (mName this) non_void_names ->
    Constructed (set_non_void this)
| Constructed_addAttribute (this : Element) (apName aValue : string) :
    Constructed this -> Constructed (addAttribute apName aValue this)
| Constructed_append (this aElement : Element) :
    Constructed this -> Constructed aElement ->
    Constructed (append this aElement).

(** ** The static types of [operator<<]

    Which children a container takes is settled by overload resolution
    on the static class of the two operands.  The classes, the
    [operator<<] members each declares, hiding of the inherited members
    by a class that declares its own, and the choice of the best viable
    member for an rvalue operand are modelled here. *)
Module Cpp.

Inductive Class : Type :=
| CElement | CText | CTitle | CStyle | CScript | CMeta | CRel | CBase
| CHead | CBody | CBreak | CColHeader | CCol | CRow | CTable | CList
| CListItem | CForm | CInput | CInputRadio | CInputCheckbox | CInputText
| CTextArea | CInputNumber | CInputRange | CInputDate | CInputTime
| CInputEmail | CInputUrl | CInputPassword | CInputSubmit | CInputReset
| CInputList | CDataList | CSelect | COption | CHeader1 | CHeader2
| CHeader3 | CBold | CItalic | CStrong | CParagraph | CDiv | CSpan | CLink
| CImage | CMark | CTime | CHeader | CFooter | CSection | CArticle | CNav
| CAside | CMain | CFigure | CFigCaption | CDetails | CSummary.

Definition Class_eq_dec (a b : Class) : {a = b} + {a <> b}.
Proof. decide equality. Defined.

Definition same (a b : Class) : bool :=
  if Class_eq_dec a b then true else false.

(** The direct base class. *)
Definition base (c : Class) : option Class :=
  match c with
  | CElement => None
  | CInputRadio | CInputCheckbox | CInputText | CInputNumber | CInputRange
  | CInputDate | CInputTime | CInputEmail | CInputUrl | CInputPassword
  | CInputSubmit | CInputReset | CInputList => Some CInput
  | _ => Some CElement
  end.

(** Derivation steps from [c] up to [d]; the hierarchy is two deep. *)
Definition distance (c d : Class) : option nat :=
  if same c d then Some 0%nat
  else match base c with
       | None => None
       | Some b =>
           if same b d then Some 1%nat
           else match base b with
                | Some bb => if same bb d then Some 2%nat else None
                | None => None
                end
       end.

(** A parameter of an [operator<<] member: [D&&] for a class [D], or
    text, which stands for the three members of [Element] that take a
    character pointer or a string. *)
Inductive Param : Type :=
| PNode (d : Class)
| PText.

(** The right operand: an rvalue of a class, or a text. *)
Inductive Operand : Type :=
| ONode (c : Class)
| OText.

Record Overload : Type := {
  param : Param;
  deleted : bool;
  ret : Class
}.

(** The [operator<<] members declared in the body of each class. *)
Definition declared (c : Class) : list Overload :=
  match c with
  | CElement =>
      [ {| param := PNode CElement; deleted := false; ret := CElement |};
        {| param := PText; deleted := false; ret := CElement |} ]
  | CHead =>
      [ {| param := PNode CElement; deleted := true; ret := CHead |};
        {| param := PNode CTitle; deleted := false; ret := CHead |};
        {| param := PNode CStyle; deleted := false; ret := CHead |};
        {| param := PNode CScript; deleted := false; ret := CHead |};
        {| param := PNode CMeta; deleted := false; ret := CHead |};
        {| param := PNode CRel; deleted := false; ret := CHead |};
        {| param := PNode CBase; deleted := false; ret := CHead |} ]
  | CRow =>
      [ {| param := PNode CElement; deleted := true; ret := CRow |};
        {| param := PNode CColHeader; deleted := false; ret := CRow |};
        {| param := PNode CCol; deleted := false; ret := CRow |} ]
  | CTable =>
      [ {| param := PNode CElement; deleted := true; ret := CElement |};
        {| param := PNode CRow; deleted := false; ret := CElement |} ]
  | _ => []
  end.

(** Member lookup: the nearest class that declares the name hides the
    declarations of its bases. *)
Definition lookup (c : Class) : list Overload :=
  match declared c with
  | (_ :: _) as found => found
  | [] =>
      match base c with
      | None => []
      | Some b =>
          match declared b with
          | (_ :: _) as found => found
          | [] => match base b with
                  | Some bb => declared bb
                  | None => []
                  end
          end
      end
  end.

(** How well an operand binds to a parameter, smaller being better: an
    rvalue of [c] binds to [D&&] when [c] is [D] or derives from it, a
    nearer base being the better match; a text is no element, the
    constructors from text being explicit. *)
Definition rank (p : Param) (o : Operand) : option nat :=
  match p, o with
  | PNode d, ONode c => distance c d
  | PText, OText => Some 0%nat
  | _, _ => None
  end.

(** The best viable member, if any. *)
Fixpoint best (o : Operand) (candidates : list Overload)
  : option (nat * Overload) :=
  match candidates with
  | [] => None
  | f :: rest =>
      match rank (param f) o, best o rest with
      | Some r, Some (r', f') =>
          if Nat.leb r r' then Some (r, f) else Some (r', f')
      | Some r, None => Some (r, f)
      | None, other => other
      end
  end.

(** The static type of [lhs << operand] for an [lhs] of class [c], or
    [None] when the expression does not compile: no viable member, or
    the selected member is deleted. *)
Definition shl_type (c : Class) (o : Operand) : option Class :=
  match best o (lookup c) with
  | Some (_, f) => if deleted f then None else Some (ret f)
  | None => None
  end.

(** The static type of [lhs.addAttribute(...)] and of the setters built
    on it: [Input] declares its own, returning [Input&&]. *)
Definition addAttribute_type (c : Class) : Class :=
  match distance c CInput with
  | Some _ => CInput
  | None => CElement
  end.

(** Builder expressions: a constructor call of a class, with the
    element it yields, and the calls chained on it. *)
Inductive Expr : Type :=
| New (c : Class) (v : Element)
| AddAttribute (e : Expr) (apName aValue : string)
| Shl (e child : Expr)
| ShlText (e : Expr) (aContent : string).

(** The static class of an expression, [None] when it does not compile. *)
Fixpoint type_of (e : Expr) : option Class :=
  match e with
  | New c _ => Some c
  | AddAttribute e' _ _ => option_map addAttribute_type (type_of e')
  | Shl e' child =>
      match type_of e', type_of child with
      | Some c, Some k => shl_type c (ONode k)
      | _, _ => None
      end
  | ShlText e' _ =>
      match type_of e' with
      | Some c => shl_type c OText
      | None => None
      end
  end.

(** The element an expression evaluates to. *)
Fixpoint value (e : Expr) : Element :=
  match e with
  | New _ v => v
  | AddAttribute e' apName aValue => addAttribute apName aValue (value e')
  | Shl e' child => append (value e') (value child)
  | ShlText e' aContent => append_text (value e') aContent
  end.

(** The child classes each gated container is meant to take. *)
Definition accepted (c : Class) : list Class :=
  match c with
  | CHead => [CTitle; CStyle; CScript; CMeta; CRel; CBase]
  | CRow => [CColHeader; CCol]
  | CTable => [CRow]
  | _ => []
  end.

Definition member (k : Class) (l : list Class) : bool :=
  existsb (same k) l.

End Cpp.

(** ** Lines of the output *)

Definition newline : ascii := ascii_of_N 10.

(** [p] is a prefix of [s]. *)
Fixpoint starts_with (p s : string) : bool :=
  match p, s with
  | EmptyString, _ => true
  | String a p', String b s' => Ascii.eqb a b && starts_with p' s'
  | String _ _, EmptyString => false
  end.

(** [block] occurs in [out] at the start of a line; [fresh] tells
    whether [out] itself starts a line. *)
Fixpoint at_line_start (block out : string) (fresh : bool) : bool :=
  (fresh && starts_with block out)
  || match out with
     | EmptyString => false
     | String c out' => at_line_start block out' (Ascii.eqb c newline)
     end.

(** [block] stands in [out] on lines of its own: it begins where a line
    begins and ends with the end of a line. *)
Definition on_own_line (block out : string) : Prop :=
  exists pre post,
    out = pre ++ block ++ post
    /\ (pre = EmptyString \/ exists t, pre = t ++ nl)
    /\ exists b, block = b ++ nl.

(** The text that an opening tag line, the children's blocks and a
    closing tag line make up. *)
Definition tag_lines (this : Element) (aIndentation : N) : string :=
  indent aIndentation ++ open_tag this ++ ">" ++ nl
  ++ blocks (mChildren this) (size_add aIndentation HTML_INDENTATION)
  ++ indent aIndentation ++ close_tag this.

(** The attribute map after a chain of [addAttribute] calls. *)
Definition sets (m : StdMap.t) (calls : list (string * string)) : StdMap.t :=
  fold_left (fun m c => StdMap.set (fst c) (snd c) m) calls m.

(** A node renders as an opening tag line, its children's blocks and a
    closing tag line. *)
Definition renders_as_tag_lines (this : Element) (aIndentation : N) : Prop :=
  toString_ EmptyString this aIndentation = tag_lines this aIndentation.

(** Every child of the node is rendered on lines of its own. *)
Definition children_on_own_lines (this : Element) (aIndentation : N) : Prop :=
  forall child,
    In child (mChildren this) ->
    on_own_line
      (toString_ EmptyString child (size_add aIndentation HTML_INDENTATION))
      (toString_ EmptyString this aIndentation).


(** ** Further builder methods *)

(** The four setters of [Element] that are named after an attribute. *)
Module Setters.

Definition id (aValue : string) (this : Element) : Element :=
  addAttribute "id" aValue this.

Definition cls (aValue : string) (this : Element) : Element :=
  addAttribute "class" aValue this.

Definition title (aValue : string) (this : Element) : Element :=
  addAttribute "title" aValue this.

Definition style (aValue : string) (this : Element) : Element :=
  addAttribute "style" aValue this.

End Setters.

(** [rowSpan(aNbRow)], declared alike by [ColHeader] and [Col]. *)
Definition rowSpan (aNbRow : N) (this : Element) : Element :=
  if 0 <? aNbRow then addAttribute_uint "rowspan" aNbRow this else this.

(** [colSpan(aNbCol)], declared alike by [ColHeader] and [Col]. *)
Definition colSpan (aNbCol : N) (this : Element) : Element :=
  if 0 <? aNbCol then addAttribute_uint "colspan" aNbCol this else this.

(** Calls applied one after the other, the first of the list first. *)
Definition apply_all (calls : list (Element -> Element)) (this : Element)
  : Element :=
  fold_left (fun e f => f e) calls this.


(** The attribute a builder call sets, if it sets one. *)
Definition attribute_call (c : BuilderCall) : list (string * string) :=
  match c with
  | CallAddAttribute apName aValue => [(apName, aValue)]
  | CallAddAttributeUint apName aValue => [(apName, to_string aValue)]
  | CallAppend _ | CallAppendText _ => []
  end.

(** The child a builder call appends, if it appends one. *)
Definition appended_child (c : BuilderCall) : list Element :=
  match c with
  | CallAppend aElement => [aElement]
  | CallAppendText aContent => [Text aContent]
  | CallAddAttribute _ _ | CallAddAttributeUint _ _ => []
  end.

Definition attribute_calls (calls : list BuilderCall)
  : list (string * string) :=
  flat_map attribute_call calls.

Definition appended (calls : list BuilderCall) : list Element :=
  flat_map appended_child calls.

(** ** Counting lines *)

(** The number of newline characters of a text. *)
Fixpoint nl_count (s : string) : nat :=
  match s with
  | EmptyString => 0%nat
  | String c s' => ((if Ascii.eqb c newline then 1 else 0) + nl_count s')%nat
  end.

(** The text holds no newline. *)
Definition one_line (s : string) : bool := Nat.eqb (nl_count s) 0.

(** No name, content, attribute name or attribute value of the tree
    holds a newline. *)
Fixpoint plain (this : Element) : bool :=
  match this with
  | Build_Element name content attrs children _ =>
      one_line name && one_line content
      && forallb (fun a => one_line (fst a) && one_line (snd a)) attrs
      && forallb plain children
  end.

(** The lines a tree is expected to take: one for an unnamed element;
    for a named one those of its children, one more when the opening
    tag ends its line and one more when a closing tag is written. *)
Fixpoint line_count (this : Element) : nat :=
  match this with
  | Build_Element name content attrs children nonvoid =>
      if empty name then 1%nat
      else (list_sum (map line_count children)
            + (if empty content && negb nonvoid then 1 else 0)
            + (if negb (empty content) || negb (vempty children) || nonvoid
               then 1 else 0))%nat
  end.

(** ** Properties of every node of a tree *)

Inductive Everywhere (P : Element -> Prop) : Element -> Prop :=
| Everywhere_node (this : Element) :
    P this -> Forall (Everywhere P) (mChildren this) -> Everywhere P this.

(** What every node of a built tree satisfies: the attribute map is
    ordered, no attribute name occurs twice, and a non-void node has a
    name. *)
Definition sound_node (this : Element) : Prop :=
  StdMap.ordered (mAttributes this)
  /\ NoDup (map fst (mAttributes this))
  /\ (mbNonVoid this = true -> mName this <> EmptyString).

(** ** Chains of appends and their static type *)

(** [e << o1 << ... << on]. *)
Definition shl_chain (e : Cpp.Expr) (operands : list Cpp.Expr) : Cpp.Expr :=
  fold_left Cpp.Shl operands e.

(** The operand compiles and is of a class that [c] accepts. *)
Definition accepted_operand (c : Cpp.Class) (operand : Cpp.Expr) : bool :=
  match Cpp.type_of operand with
  | Some k => Cpp.member k (Cpp.accepted c)
  | None => false
  end.

(** ** The entries around a key *)

(** The entries of the map whose key is below [k]. *)
Definition below (k : string) (m : StdMap.t) : StdMap.t :=
  filter (fun e => String.ltb (fst e) k) m.

(** The entries of the map whose key is above [k]. *)
Definition above (k : string) (m : StdMap.t) : StdMap.t :=
  filter (fun e => String.ltb k (fst e)) m.

(** ** Calls of [addAttribute] by either overload *)

(** One call of [addAttribute]: with a string value or with an
    [unsigned int] value. *)
Inductive AttributeCall : Type :=
| WithString (apName aValue : string)
| WithUint (apName : string) (aValue : N).

Definition addAttribute_call (this : Element) (c : AttributeCall) : Element :=
  match c with
  | WithString apName aValue => addAttribute apName aValue this
  | WithUint apName aValue => addAttribute_uint apName aValue this
  end.

(** The calls chained on [this], the first of the list first. *)
Definition addAttribute_calls (this : Element) (calls : list AttributeCall)
  : Element :=
  fold_left addAttribute_call calls this.

(** The attribute name a call is made with. *)
Definition call_name (c : AttributeCall) : string :=
  match c with
  | WithString apName _ => apName
  | WithUint apName _ => apName
  end.

(** The value a call is made with, as a text: the string itself, or the
    decimal numeral of the number. *)
Definition call_value (c : AttributeCall) : string :=
  match c with
  | WithString _ aValue => aValue
  | WithUint _ aValue => to_string aValue
  end.

(** The value of the last call of the chain made with [name]. *)
Definition last_value (name : string) (calls : list AttributeCall)
  : option string :=
  last_set name (map (fun c => (call_name c, call_value c)) calls).

(** ** What follows the attributes

    The text of a named element from the end of its opening tag on:
    the end of the tag, the content, the blocks of the children and
    the closing tag with its indentation, as far as they are written. *)
Definition after_attributes (this : Element) (aIndentation : N) : string :=
  open_end this ++ mContent this
  ++ blocks (mChildren this) (size_add aIndentation HTML_INDENTATION)
  ++ (if vempty (mChildren this) then EmptyString else indent aIndentation)
  ++ (if negb (empty (mContent this)) || negb (vempty (mChildren this))
         || mbNonVoid this
      then close_tag this else EmptyString).

(** * Proofs *)

(** ** Strings and streams *)

Section StringFacts.

Lemma sapp_nil_r (s : string) : s ++ EmptyString = s.
Proof. induction s as [|c s IH]; simpl; [reflexivity | now rewrite IH]. Qed.

Lemma sapp_assoc (a b c : string) : (a ++ b) ++ c = a ++ (b ++ c).
Proof. induction a as [|x a IH]; simpl; [reflexivity | now rewrite IH]. Qed.

Lemma concat_nil_cons (x : string) (l : list string) :
  String.concat EmptyString (x :: l) = x ++ String.concat EmptyString l.
Proof.
  destruct l as [|y l]; simpl; [now rewrite sapp_nil_r | reflexivity].
Qed.

Lemma empty_true (s : string) : empty s = true <-> s = EmptyString.
Proof. destruct s; simpl; split; congruence. Qed.

Lemma empty_false (s : string) : empty s = false <-> s <> EmptyString.
Proof. destruct s; simpl; split; congruence. Qed.

End StringFacts.

Section StreamFacts.

Lemma replicate_succ_r (n : N) (c : ascii) :
  replicate (N.succ n) c = replicate n c ++ String c EmptyString.
Proof.
  unfold replicate. induction n as [|n IH] using N.peano_ind.
  - reflexivity.
  - rewrite N.iter_succ, IH at 1. rewrite N.iter_succ. reflexivity.
Qed.

(** [fill_n] appends [n] copies of the character. *)
Lemma fill_n_eq (s : ostream) (n : N) (c : ascii) :
  fill_n s n c = s ++ replicate n c.
Proof.
  unfold fill_n. induction n as [|n IH] using N.peano_ind.
  - simpl. now rewrite sapp_nil_r.
  - rewrite N.iter_succ, IH, replicate_succ_r. unfold putc.
    now rewrite sapp_assoc.
Qed.

Lemma replicate_length (n : N) (c : ascii) :
  String.length (replicate n c) = N.to_nat n.
Proof.
  unfold replicate. induction n as [|n IH] using N.peano_ind.
  - reflexivity.
  - rewrite N.iter_succ, N2Nat.inj_succ. simpl. now rewrite IH.
Qed.

Lemma put_attr_eq (s : ostream) (attr : string * string) :
  put_attr s attr = s ++ attr_text attr.
Proof.
  unfold put_attr, attr_text, put, putc.
  destruct (empty (snd attr)); simpl;
    rewrite ?sapp_assoc; simpl; rewrite ?sapp_nil_r; reflexivity.
Qed.

(** The attribute loop appends the attributes in map order. *)
Lemma put_attrs_eq (m : StdMap.t) (s : ostream) :
  fold_left put_attr m s = s ++ attrs_text m.
Proof.
  revert s. unfold attrs_text.
  induction m as [|a m IH]; intros s.
  - simpl. now rewrite sapp_nil_r.
  - cbn [fold_left map]. rewrite IH, put_attr_eq, concat_nil_cons.
    now rewrite sapp_assoc.
Qed.

End StreamFacts.


(** ** The serializer only appends *)

Section Framing.

Lemma toString_unfold (s : ostream) (this : Element) (i : N) :
  toString_ s this i
  = toStringClose (toStringContent (toStringOpen s this i) this i) this i.
Proof. destruct this; reflexivity. Qed.

(** The loop over the children, given that each child only appends. *)
Lemma children_loop_eq (children : list Element) (i : N) :
  Forall (fun c => forall s j, toString_ s c j = s ++ toString_ EmptyString c j)
         children ->
  forall s,
    fold_left (fun aStream child => toString_ aStream child i) children s
    = s ++ blocks children i.
Proof.
  unfold blocks. induction 1 as [|c cs Hc _ IH]; intros s.
  - simpl. now rewrite sapp_nil_r.
  - cbn [fold_left map]. rewrite IH, Hc, concat_nil_cons.
    now rewrite sapp_assoc.
Qed.

Lemma toStringOpen_frame (s : ostream) (this : Element) (i : N) :
  toStringOpen s this i = s ++ toStringOpen EmptyString this i.
Proof.
  unfold toStringOpen. destruct (negb (empty (mName this)));
    [|now rewrite sapp_nil_r].
  rewrite !put_attrs_eq. unfold put, putc. rewrite !fill_n_eq.
  destruct (empty (mContent this)), (mbNonVoid this),
    (negb (vempty (mChildren this)));
    simpl; rewrite ?sapp_assoc; reflexivity.
Qed.

Lemma toStringClose_frame (s : ostream) (this : Element) (i : N) :
  toStringClose s this i = s ++ toStringClose EmptyString this i.
Proof.
  unfold toStringClose. destruct (negb (empty (mName this)));
    [|now rewrite sapp_nil_r].
  rewrite !fill_n_eq.
  destruct (negb (vempty (mChildren this)));
    destruct (_ || _ || _); unfold put; simpl;
    rewrite ?sapp_assoc, ?sapp_nil_r; reflexivity.
Qed.

(** Rendering into a stream leaves what was written and appends the
    element's own text. *)
Lemma toString_frame (this : Element) :
  forall s i, toString_ s this i = s ++ toString_ EmptyString this i.
Proof.
  induction this as [name content attrs children nonvoid IH]
    using Element_children_ind.
  intros s i. rewrite !toString_unfold.
  rewrite toStringClose_frame.
  rewrite (toStringClose_frame (toStringContent _ _ _)).
  rewrite <- sapp_assoc. f_equal.
  unfold toStringContent, toStringContent_. cbn [mName mContent mChildren].
  destruct (negb (empty name)).
  - rewrite !(children_loop_eq _ _ IH). unfold put.
    rewrite toStringOpen_frame. simpl. now rewrite !sapp_assoc.
  - unfold put, putc. rewrite !fill_n_eq, toStringOpen_frame.
    simpl. now rewrite !sapp_assoc.
Qed.

(** The children are written one block after the other. *)
Lemma children_blocks (children : list Element) (i : N) (s : ostream) :
  fold_left (fun aStream child => toString_ aStream child i) children s
  = s ++ blocks children i.
Proof.
  apply children_loop_eq, Forall_forall.
  intros c _ s' j. apply toString_frame.
Qed.

End Framing.

(** ** The three phases of a named element *)

Section Phases.

Variables (this : Element) (i : N) (s : ostream).
Hypothesis named : mName this <> EmptyString.

Lemma toStringOpen_named :
  toStringOpen s this i = s ++ indent i ++ open_tag this ++ open_end this.
Proof.
  unfold toStringOpen, open_tag, open_end, indent.
  apply empty_false in named. rewrite named. cbn [negb].
  rewrite put_attrs_eq. unfold put, putc. rewrite fill_n_eq.
  destruct (empty (mContent this)), (mbNonVoid this),
    (negb (vempty (mChildren this)));
    simpl; rewrite ?sapp_assoc; reflexivity.
Qed.

Lemma toStringContent_named :
  toStringContent s this i
  = s ++ mContent this
      ++ blocks (mChildren this) (size_add i HTML_INDENTATION).
Proof.
  unfold toStringContent, toStringContent_.
  apply empty_false in named. rewrite named. cbn [negb].
  rewrite children_blocks. unfold put. now rewrite sapp_assoc.
Qed.

Lemma toStringClose_named :
  toStringClose s this i
  = s ++ (if vempty (mChildren this) then EmptyString else indent i)
      ++ (if negb (empty (mContent this)) || negb (vempty (mChildren this))
             || mbNonVoid this
          then close_tag this else EmptyString).
Proof.
  unfold toStringClose, close_tag, indent.
  apply empty_false in named. rewrite named. cbn [negb].
  rewrite fill_n_eq.
  destruct (vempty (mChildren this)); cbn [negb];
    destruct (_ || _ || _); unfold put; simpl;
    rewrite ?sapp_assoc, ?sapp_nil_r; reflexivity.
Qed.

End Phases.

(** ** The order of the keys *)

Section KeyOrder.

Lemma ascii_compare_refl (a : ascii) : Ascii.compare a a = Eq.
Proof. unfold Ascii.compare. apply N.compare_refl. Qed.

Lemma ascii_compare_lt_trans (a b c : ascii) :
  Ascii.compare a b = Lt -> Ascii.compare b c = Lt -> Ascii.compare a c = Lt.
Proof.
  unfold Ascii.compare. rewrite !N.compare_lt_iff. apply N.lt_trans.
Qed.

Lemma compare_refl (s : string) : String.compare s s = Eq.
Proof.
  induction s as [|a s IH]; simpl; [reflexivity|].
  now rewrite ascii_compare_refl.
Qed.

Lemma compare_eq (a b : string) : String.compare a b = Eq <-> a = b.
Proof.
  split; [apply String.compare_eq_iff | intros ->; apply compare_refl].
Qed.

Lemma compare_gt_lt (a b : string) :
  String.compare a b = Gt <-> String.compare b a = Lt.
Proof.
  rewrite (String.compare_antisym b a).
  destruct (String.compare a b); simpl; split; congruence.
Qed.

Lemma key_lt_trans (a b c : string) :
  StdMap.key_lt a b -> StdMap.key_lt b c -> StdMap.key_lt a c.
Proof.
  unfold StdMap.key_lt. revert b c.
  induction a as [|x a IH]; intros [|y b] [|z c]; simpl;
    try discriminate; try reflexivity.
  destruct (Ascii.compare x y) eqn:Hxy; try discriminate;
    destruct (Ascii.compare y z) eqn:Hyz; try discriminate; intros H1 H2.
  - apply Ascii.compare_eq_iff in Hxy, Hyz. subst.
    rewrite ascii_compare_refl. eauto.
  - apply Ascii.compare_eq_iff in Hxy. subst. now rewrite Hyz.
  - apply Ascii.compare_eq_iff in Hyz. subst. now rewrite Hxy.
  - now rewrite (ascii_compare_lt_trans _ _ _ Hxy Hyz).
Qed.

Lemma key_lt_irrefl (a : string) : ~ StdMap.key_lt a a.
Proof. unfold StdMap.key_lt. now rewrite compare_refl. Qed.

Lemma key_lt_neq (a b : string) : StdMap.key_lt a b -> a <> b.
Proof. intros H ->. exact (key_lt_irrefl _ H). Qed.

End KeyOrder.

(** ** The attribute map *)

Section MapFacts.

Import StdMap.

Lemma set_In (k v : string) (m : t) (x : string * string) :
  In x (set k v m) -> x = (k, v) \/ In x m.
Proof.
  induction m as [|[k' v'] m IH]; simpl.
  - intros [<-|[]]. now left.
  - destruct (String.compare k k'); simpl.
    + intros [<-|H]; auto.
    + intros [<-|H]; auto.
    + intros [<-|H]; auto. destruct (IH H); auto.
Qed.

(** Assignment keeps the keys strictly increasing. *)
Lemma set_ordered (k v : string) (m : t) :
  ordered m -> ordered (set k v m).
Proof.
  unfold ordered.
  induction m as [|[k' v'] m IH]; simpl; intros Hm.
  - repeat constructor.
  - inversion Hm as [|? ? Hm' Hall]; subst.
    destruct (String.compare k k') eqn:Hc.
    + apply compare_eq in Hc. subst k'. constructor; assumption.
    + constructor; [assumption|]. constructor; [exact Hc|].
      eapply Forall_impl; [|exact Hall].
      intros x Hx. unfold entry_lt in *. simpl in *.
      eapply key_lt_trans; eauto.
    + constructor; [now apply IH|].
      apply Forall_forall. intros x Hx.
      destruct (set_In _ _ _ _ Hx) as [->|Hin].
      * unfold entry_lt. simpl. now apply compare_gt_lt.
      * rewrite Forall_forall in Hall. now apply Hall.
Qed.

(** The assigned key holds the assigned value. *)
Lemma find_set_same (k v : string) (m : t) : find k (set k v m) = Some v.
Proof.
  induction m as [|[k' v'] m IH]; simpl.
  - now rewrite String.eqb_refl.
  - destruct (String.compare k k') eqn:Hc; simpl.
    + now rewrite String.eqb_refl.
    + now rewrite String.eqb_refl.
    + assert (k <> k') as Hne
        by (intros ->; rewrite compare_refl in Hc; discriminate).
      apply String.eqb_neq in Hne. now rewrite Hne.
Qed.

(** The other keys keep their values. *)
Lemma find_set_other (k v k0 : string) (m : t) :
  k0 <> k -> find k0 (set k v m) = find k0 m.
Proof.
  intros Hne. pose proof (proj2 (String.eqb_neq k0 k) Hne) as Hb.
  induction m as [|[k' v'] m IH]; simpl.
  - now rewrite Hb.
  - destruct (String.compare k k') eqn:Hc; simpl.
    + apply compare_eq in Hc. subst k'. now rewrite Hb.
    + now rewrite Hb.
    + now rewrite IH.
Qed.

Lemma find_below (k : string) (m : t) :
  Forall (fun x => key_lt k (fst x)) m -> find k m = None.
Proof.
  induction 1 as [|[k' v'] m Hlt _ IH]; simpl; [reflexivity|].
  simpl in Hlt. apply key_lt_neq, String.eqb_neq in Hlt. now rewrite Hlt.
Qed.

Lemma count_below (k : string) (m : t) :
  Forall (fun x => key_lt k (fst x)) m -> count k m = 0%nat.
Proof.
  unfold count.
  induction 1 as [|[k' v'] m Hlt _ IH]; simpl; [reflexivity|].
  simpl in Hlt. apply key_lt_neq, String.eqb_neq in Hlt. now rewrite Hlt.
Qed.

(** After an assignment the map holds exactly one entry for the key. *)
Lemma count_set (k v : string) (m : t) :
  ordered m -> count k (set k v m) = 1%nat.
Proof.
  unfold ordered.
  induction m as [|[k' v'] m IH]; intros Hm.
  - unfold count. simpl. now rewrite String.eqb_refl.
  - inversion Hm as [|? ? Hm' Hall]; subst. simpl.
    destruct (String.compare k k') eqn:Hc.
    + apply compare_eq in Hc. subst k'.
      unfold count. simpl. rewrite String.eqb_refl. simpl. f_equal.
      now apply count_below.
    + unfold count. cbn [filter fst]. rewrite String.eqb_refl.
      cbn [List.length]. f_equal. apply (count_below k ((k', v') :: m)).
      constructor; [exact Hc|].
      eapply Forall_impl; [|exact Hall].
      intros x Hx. unfold entry_lt in Hx. simpl in Hx.
      eapply key_lt_trans; eauto.
    + assert (k <> k') as Hne
        by (intros ->; rewrite compare_refl in Hc; discriminate).
      apply String.eqb_neq in Hne.
      unfold count in *. cbn [filter fst]. rewrite Hne. now apply IH.
Qed.

(** Two ordered maps with the same bindings are the same list. *)
Lemma ordered_ext (m1 m2 : t) :
  ordered m1 -> ordered m2 ->
  (forall k, find k m1 = find k m2) -> m1 = m2.
Proof.
  unfold ordered. revert m2.
  induction m1 as [|[k1 v1] m1 IH]; intros [|[k2 v2] m2] H1 H2 Hf.
  - reflexivity.
  - specialize (Hf k2). simpl in Hf. rewrite String.eqb_refl in Hf.
    discriminate.
  - specialize (Hf k1). simpl in Hf. rewrite String.eqb_refl in Hf.
    discriminate.
  - inversion H1 as [|? ? H1' Hall1]; inversion H2 as [|? ? H2' Hall2]; subst.
    assert (k1 = k2) as ->.
    { destruct (String.compare k1 k2) eqn:Hc.
      - now apply compare_eq.
      - exfalso. pose proof (Hf k1) as Hk. simpl in Hk.
        rewrite String.eqb_refl in Hk.
        pose proof (key_lt_neq _ _ Hc) as Hne.
        apply String.eqb_neq in Hne. rewrite Hne in Hk.
        rewrite find_below in Hk; [discriminate|].
        eapply Forall_impl; [|exact Hall2].
        intros x Hx. unfold entry_lt in Hx. simpl in Hx.
        eapply key_lt_trans; eauto.
      - exfalso. apply compare_gt_lt in Hc.
        pose proof (Hf k2) as Hk. simpl in Hk.
        rewrite String.eqb_refl in Hk.
        pose proof (key_lt_neq _ _ Hc) as Hne.
        apply String.eqb_neq in Hne. rewrite Hne in Hk.
        rewrite find_below in Hk; [discriminate|].
        eapply Forall_impl; [|exact Hall1].
        intros x Hx. unfold entry_lt in Hx. simpl in Hx.
        eapply key_lt_trans; eauto. }
    pose proof (Hf k2) as Hk. simpl in Hk. rewrite String.eqb_refl in Hk.
    injection Hk as ->. f_equal.
    apply IH; try assumption.
    intros k. specialize (Hf k). simpl in Hf.
    destruct (String.eqb k k2) eqn:Hkk; [|exact Hf].
    apply String.eqb_eq in Hkk. subst k.
    rewrite !find_below; [reflexivity| |]; assumption.
Qed.

End MapFacts.

Section MapCounting.

Import StdMap.

(** In an ordered map a key has one entry or none. *)
Lemma count_find (k : string) (m : t) :
  ordered m ->
  count k m = match find k m with Some _ => 1%nat | None => 0%nat end.
Proof.
  unfold ordered, count.
  induction m as [|[k' v'] m IH]; intros Hm; [reflexivity|].
  inversion Hm as [|? ? Hm' Hall]; subst. cbn [filter fst find].
  destruct (String.eqb k k') eqn:Hkk.
  - apply String.eqb_eq in Hkk. subst k'. cbn [List.length]. f_equal.
    now apply (count_below k m).
  - now apply IH.
Qed.

End MapCounting.

(** ** Chains of [addAttribute] *)

Section AttributeChains.

Lemma addAttributes_eq (this : Element) (calls : list (string * string)) :
  addAttributes this calls
  = {| mName := mName this; mContent := mContent this;
       mAttributes := sets (mAttributes this) calls;
       mChildren := mChildren this; mbNonVoid := mbNonVoid this |}.
Proof.
  revert this. induction calls as [|[k v] calls IH]; intros this.
  - now destruct this.
  - unfold addAttributes in *. cbn [fold_left]. rewrite IH. reflexivity.
Qed.

Lemma sets_ordered (m : StdMap.t) (calls : list (string * string)) :
  StdMap.ordered m -> StdMap.ordered (sets m calls).
Proof.
  revert m. induction calls as [|[k v] calls IH]; intros m Hm; [exact Hm|].
  apply IH. now apply set_ordered.
Qed.

(** Each name holds the value of the last call that set it, and the
    names no call set keep the value they had. *)
Lemma sets_find (m : StdMap.t) (calls : list (string * string)) (k : string) :
  StdMap.find k (sets m calls)
  = match last_set k calls with
    | Some v => Some v
    | None => StdMap.find k m
    end.
Proof.
  revert m. induction calls as [|[k0 v0] calls IH]; intros m; [reflexivity|].
  cbn [sets fold_left last_set fst snd]. fold (sets (StdMap.set k0 v0 m) calls).
  rewrite IH. destruct (last_set k calls); [reflexivity|].
  destruct (String.eqb k k0) eqn:Hkk.
  - apply String.eqb_eq in Hkk. subst k0. apply find_set_same.
  - apply String.eqb_neq in Hkk. now apply find_set_other.
Qed.

Lemma last_set_In (calls : list (string * string)) :
  NoDup (map fst calls) ->
  forall k v, last_set k calls = Some v <-> In (k, v) calls.
Proof.
  induction calls as [|[k0 v0] calls IH]; intros Hnd k v.
  - simpl. split; [discriminate | contradiction].
  - inversion Hnd as [|? ? Hnotin Hnd']; subst. specialize (IH Hnd').
    cbn [last_set]. split.
    + destruct (last_set k calls) as [v'|] eqn:Hl.
      * intros [= ->]. right. now apply IH.
      * destruct (String.eqb k k0) eqn:Hkk; [|discriminate].
        apply String.eqb_eq in Hkk. intros [= ->]. subst. now left.
    + intros [[= -> ->]|Hin].
      * destruct (last_set k calls) as [v'|] eqn:Hl.
        -- exfalso. apply Hnotin. apply IH in Hl.
           change k with (fst (k, v')). now apply in_map.
        -- now rewrite String.eqb_refl.
      * apply IH in Hin. now rewrite Hin.
Qed.

(** With every name set once, the order of the calls does not matter
    to the value each name ends with. *)
Lemma last_set_Permutation (calls calls' : list (string * string)) :
  Permutation calls calls' -> NoDup (map fst calls) ->
  forall k, last_set k calls = last_set k calls'.
Proof.
  intros Hp Hnd k.
  assert (NoDup (map fst calls')) as Hnd'
    by (eapply Permutation_NoDup; [apply Permutation_map; exact Hp|exact Hnd]).
  destruct (last_set k calls) as [v|] eqn:H1.
  - symmetry. apply (last_set_In _ Hnd'). apply (last_set_In _ Hnd) in H1.
    eapply Permutation_in; eauto.
  - destruct (last_set k calls') as [v|] eqn:H2; [|reflexivity].
    apply (last_set_In _ Hnd') in H2.
    apply Permutation_sym in Hp.
    pose proof (Permutation_in _ Hp H2) as Hin.
    apply (last_set_In _ Hnd) in Hin. congruence.
Qed.

(** Every element the header builds has an ordered attribute map. *)
Lemma Constructed_ordered (this : Element) :
  Constructed this -> StdMap.ordered (mAttributes this).
Proof.
  induction 1; simpl; try assumption; try constructor.
  now apply set_ordered.
Qed.

(** A non-void element the header builds has a name. *)
Lemma Constructed_non_void_named (this : Element) :
  Constructed this -> mbNonVoid this = true -> mName this <> EmptyString.
Proof.
  induction 1; simpl; try discriminate; try assumption.
  intros _. unfold non_void_names in *. simpl in *.
  intuition (try congruence); match goal with
  | H : _ = mName _ |- _ => rewrite <- H; discriminate
  end.
Qed.

(** The constructors of the specialized elements stay within the
    elements described by [Constructed]. *)
Lemma flavours_Constructed :
  (forall c, Constructed (ColHeader c))
  /\ (forall c, Constructed (Col c))
  /\ (forall name cols rows, Constructed (TextArea name cols rows))
  /\ (forall v c, Constructed (Option_ v c))
  /\ (forall ty name v c, Constructed (Input ty name v c))
  /\ (forall c, Constructed (Title c))
  /\ (forall c, Constructed (Style c))
  /\ (forall src c, Constructed (Script src c))
  /\ (forall charset, Constructed (Meta charset))
  /\ (forall name c, Constructed (Meta2 name c))
  /\ (forall rel url ty, Constructed (Rel rel url ty))
  /\ (forall c url target, Constructed (Base c url target)).
Proof.
  repeat split; intros;
    unfold ColHeader, Col, TextArea, Option_, Input, Title, Style, Script,
      Meta, Meta2, Rel, Base, addAttribute_uint, Element_c;
    repeat match goal with
           | |- context [match ?x with _ => _ end] => destruct x
           end;
    repeat first
      [ apply Constructed_Element
      | apply Constructed_addAttribute
      | apply Constructed_non_void; [|simpl; tauto] ].
Qed.

End AttributeChains.

(** ** Indentation arithmetic *)

(** Short of the end of [size_t], the raised indentation is the sum. *)
Lemma size_add_no_wrap (i : N) :
  i + HTML_INDENTATION <= SIZE_MAX ->
  size_add i HTML_INDENTATION = i + HTML_INDENTATION.
Proof.
  unfold size_add, SIZE_MAX. intros H. apply N.mod_small. lia.
Qed.

(** ** The rendered text of an element *)

Section Rendering.

Variables (this : Element) (i : N) (s : ostream).

(** An unnamed element is its content on a line. *)
Lemma toString_unnamed :
  mName this = EmptyString ->
  toString_ s this i = s ++ indent i ++ mContent this ++ nl.
Proof.
  intros Hname. rewrite toString_unfold.
  unfold toStringClose, toStringContent, toStringContent_, toStringOpen.
  rewrite Hname. cbn [empty negb]. unfold put, putc.
  rewrite fill_n_eq. unfold indent, nl. now rewrite !sapp_assoc.
Qed.

(** A named element is what its three phases write. *)
Lemma toString_named :
  mName this <> EmptyString ->
  toString_ s this i
  = s ++ indent i ++ open_tag this ++ open_end this
      ++ mContent this
      ++ blocks (mChildren this) (size_add i HTML_INDENTATION)
      ++ (if vempty (mChildren this) then EmptyString else indent i)
      ++ (if negb (empty (mContent this)) || negb (vempty (mChildren this))
             || mbNonVoid this
          then close_tag this else EmptyString).
Proof.
  intros Hname. rewrite toString_unfold.
  rewrite (toStringClose_named _ _ _ Hname).
  rewrite (toStringContent_named _ _ _ Hname).
  rewrite (toStringOpen_named _ _ _ Hname).
  now rewrite !sapp_assoc.
Qed.

End Rendering.

(** Every rendered block ends with a newline. *)
Lemma toString_ends_line (this : Element) (i : N) :
  exists b, toString_ EmptyString this i = b ++ nl.
Proof.
  destruct (empty (mName this)) eqn:Hname.
  - apply empty_true in Hname. rewrite (toString_unnamed _ _ _ Hname).
    exists (indent i ++ mContent this). cbn [String.append].
    now rewrite sapp_assoc.
  - apply empty_false in Hname. rewrite (toString_named _ _ _ Hname).
    cbn [String.append].
    destruct (negb (empty (mContent this)) || negb (vempty (mChildren this))
              || mbNonVoid this) eqn:Hclose.
    + unfold close_tag. eexists. rewrite <- !sapp_assoc. reflexivity.
    + apply orb_false_elim in Hclose as [Hclose Hvoid].
      apply orb_false_elim in Hclose as [Hcontent Hchildren].
      apply negb_false_iff in Hcontent, Hchildren.
      unfold open_end. rewrite Hcontent, Hvoid, Hchildren. cbn [negb].
      apply empty_true in Hcontent. rewrite Hcontent.
      destruct (mChildren this); [|discriminate].
      exists (indent i ++ open_tag this ++ "/>").
      unfold blocks, nl. simpl. rewrite ?sapp_nil_r, ?sapp_assoc. simpl.
      rewrite ?sapp_assoc. reflexivity.
Qed.

(** ** Builder calls and the fields they leave alone *)

Section Chains.

Lemma call_mName (this : Element) (c : BuilderCall) :
  mName (call this c) = mName this.
Proof. destruct c; reflexivity. Qed.

Lemma call_mContent (this : Element) (c : BuilderCall) :
  mContent (call this c) = mContent this.
Proof. destruct c; reflexivity. Qed.

Lemma chain_mName (calls : list BuilderCall) (this : Element) :
  mName (chain this calls) = mName this.
Proof.
  revert this. induction calls as [|c calls IH]; intros this; [reflexivity|].
  unfold chain in *. cbn [fold_left]. now rewrite IH, call_mName.
Qed.

Lemma chain_mContent (calls : list BuilderCall) (this : Element) :
  mContent (chain this calls) = mContent this.
Proof.
  revert this. induction calls as [|c calls IH]; intros this; [reflexivity|].
  unfold chain in *. cbn [fold_left]. now rewrite IH, call_mContent.
Qed.

(** Appended children come after those present, in call order. *)
Lemma appends_eq (children : list Element) (this : Element) :
  appends this children
  = {| mName := mName this; mContent := mContent this;
       mAttributes := mAttributes this;
       mChildren := mChildren this ++ children;
       mbNonVoid := mbNonVoid this |}.
Proof.
  revert this. induction children as [|c children IH]; intros this.
  - rewrite app_nil_r. now destruct this.
  - unfold appends in *. cbn [fold_left]. rewrite IH. simpl.
    now rewrite <- app_assoc.
Qed.

End Chains.

(** ** Occurrences at the start of a line *)

Section LineStart.

Lemma starts_with_app (p rest : string) : starts_with p (p ++ rest) = true.
Proof.
  induction p as [|a p IH]; [reflexivity|].
  simpl. now rewrite Ascii.eqb_refl, IH.
Qed.

Lemma at_line_start_unfold (block out : string) (fresh : bool) :
  at_line_start block out fresh
  = (fresh && starts_with block out)
    || match out with
       | EmptyString => false
       | String c out' => at_line_start block out' (Ascii.eqb c newline)
       end.
Proof. destruct out; reflexivity. Qed.

Lemma at_line_start_complete (block post pre : string) :
  forall fresh,
    (pre = EmptyString -> fresh = true) ->
    (pre <> EmptyString -> exists t, pre = t ++ nl) ->
    at_line_start block (pre ++ block ++ post) fresh = true.
Proof.
  induction pre as [|c pre IH]; intros fresh Hfresh Hline.
  - rewrite at_line_start_unfold, (Hfresh eq_refl).
    change (EmptyString ++ block ++ post) with (block ++ post).
    now rewrite starts_with_app.
  - rewrite at_line_start_unfold. cbn [String.append].
    rewrite IH; [apply orb_true_r | |].
    + intros ->. destruct Hline as [[|a t] Ht]; [discriminate| |].
      * injection Ht as ->. apply Ascii.eqb_refl.
      * injection Ht as _ Ht. destruct t; discriminate.
    + intros Hpre. destruct Hline as [[|a t] Ht]; [discriminate| |].
      * injection Ht as _ Ht. contradiction.
      * injection Ht as _ Ht. now exists t.
Qed.

(** A block on lines of its own occurs at the start of a line. *)
Lemma on_own_line_at_line_start (block out : string) :
  on_own_line block out -> at_line_start block out true = true.
Proof.
  intros (pre & post & -> & Hpre & _).
  apply at_line_start_complete; [reflexivity|].
  intros Hne. destruct Hpre as [->|Ht]; [contradiction | exact Ht].
Qed.

End LineStart.

(** * The properties of the specification *)

(** ** Attributes *)

(** Chains of calls by either overload store what the corresponding
    chain of string calls stores. *)
Lemma addAttribute_calls_eq (calls : list AttributeCall) (this : Element) :
  addAttribute_calls this calls
  = addAttributes this (map (fun c => (call_name c, call_value c)) calls).
Proof.
  revert this. induction calls as [|c calls IH]; intros this; [reflexivity|].
  unfold addAttribute_calls, addAttributes in *. cbn [map fold_left fst snd].
  rewrite IH. destruct c; reflexivity.
Qed.

(** The text of a named element, split after its attributes. *)
Lemma toString_after_attributes (this : Element) (i : N) (s : ostream) :
  mName this <> EmptyString ->
  toString_ s this i
  = s ++ indent i ++ "<" ++ mName this ++ attrs_text (mAttributes this)
      ++ after_attributes this i.
Proof.
  intros Hname. rewrite toString_named by exact Hname.
  unfold open_tag, after_attributes. simpl. now rewrite !sapp_assoc.
Qed.

(** C1. The rendered output of a named node holds its attributes in the
    strictly increasing lexicographic order of their names, whatever
    the order of the [addAttribute] calls, by either overload, that set
    them, and a name set more than once has exactly one entry, which
    holds the value of the last call. *)
Theorem C1_attributes_sorted_last_value_wins :
  forall (this : Element) (calls : list AttributeCall),
    Constructed this ->
    let built := addAttribute_calls this calls in
    StdMap.ordered (mAttributes built)
    /\ (forall s i,
          mName this <> EmptyString ->
          toString_ s built i
          = s ++ indent i ++ "<" ++ mName this
              ++ attrs_text (mAttributes built) ++ after_attributes this i)
    /\ (forall calls',
          Permutation calls calls' -> NoDup (map call_name calls) ->
          addAttribute_calls this calls' = built
          /\ forall s i, toString_ s (addAttribute_calls this calls') i
                         = toString_ s built i)
    /\ (forall name value,
          last_value name calls = Some value ->
          StdMap.count name (mAttributes built) = 1%nat
          /\ StdMap.find name (mAttributes built) = Some value).
Proof.
  intros this calls Hc built.
  pose proof (Constructed_ordered _ Hc) as Hord.
  assert (StdMap.ordered (mAttributes built)) as Hbuilt.
  { unfold built. rewrite addAttribute_calls_eq, addAttributes_eq.
    now apply sets_ordered. }
  split; [exact Hbuilt|]. split; [|split].
  - intros s i Hname. unfold built.
    rewrite addAttribute_calls_eq, addAttributes_eq.
    rewrite toString_after_attributes by exact Hname. reflexivity.
  - intros calls' Hp Hnd.
    assert (addAttribute_calls this calls' = built) as Heq.
    { unfold built. rewrite !addAttribute_calls_eq, !addAttributes_eq.
      f_equal. apply ordered_ext; try now apply sets_ordered.
      intros k. rewrite !sets_find.
      rewrite (last_set_Permutation
                 (map (fun c => (call_name c, call_value c)) calls)
                 (map (fun c => (call_name c, call_value c)) calls')).
      - reflexivity.
      - now apply Permutation_map.
      - now rewrite map_map. }
    split; [exact Heq|]. intros s i. now rewrite Heq.
  - intros name value Hlast. unfold last_value in Hlast.
    assert (StdMap.find name (mAttributes built) = Some value) as Hfind.
    { unfold built. rewrite addAttribute_calls_eq, addAttributes_eq.
      cbn [mAttributes]. now rewrite sets_find, Hlast. }
    split; [|exact Hfind].
    now rewrite (count_find _ _ Hbuilt), Hfind.
Qed.

(** On an input: the type as a string, the size as a number, [id] set
    to a and then to b, and the size set again.  One [id], with b, one
    size, with the last number, and the names in order in the text. *)
Lemma C1_witness :
  let this := Element_c "input" None in
  let calls := [WithString "type" "text"; WithUint "size" 9;
                WithString "id" "a"; WithString "id" "b";
                WithUint "size" 10] in
  Constructed this
  /\ mAttributes (addAttribute_calls this calls)
     = [("id", "b"); ("size", "10"); ("type", "text")]
  /\ StdMap.ordered (mAttributes (addAttribute_calls this calls))
  /\ StdMap.count "id" (mAttributes (addAttribute_calls this calls)) = 1%nat
  /\ StdMap.find "id" (mAttributes (addAttribute_calls this calls))
     = Some "b"
  /\ StdMap.find "size" (mAttributes (addAttribute_calls this calls))
     = Some "10"
  /\ toString (addAttribute_calls this calls)
     = "<input id=" ++ dquote_s ++ "b" ++ dquote_s
       ++ " size=" ++ dquote_s ++ "10" ++ dquote_s
       ++ " type=" ++ dquote_s ++ "text" ++ dquote_s ++ "/>" ++ nl.
Proof.
  intros this calls.
  assert (Constructed this) as Hc by apply Constructed_Element.
  assert (mName this <> EmptyString) as Hname by discriminate.
  destruct (C1_attributes_sorted_last_value_wins this calls Hc)
    as (Hord & Hrender & _ & Hlast).
  destruct (Hlast "id" "b" eq_refl) as [Hcount Hfind].
  destruct (Hlast "size" "10" eq_refl) as [_ Hsize].
  split; [exact Hc|]. split; [reflexivity|]. split; [exact Hord|].
  split; [exact Hcount|]. split; [exact Hfind|]. split; [exact Hsize|].
  exact (Hrender EmptyString 0 Hname).
Defined.

(** ** The shapes of a rendered element *)

(** C2, as amended. A named element that is not non-void, has no content
    and has children renders as the opening tag line, the blocks of the
    children in the order they were appended, each at the indentation
    raised by [HTML_INDENTATION], and the closing tag line. *)
Theorem C2_children_between_tag_lines :
  forall (this : Element) (children : list Element) (i : N) (s : ostream),
    mName this <> EmptyString ->
    mContent this = EmptyString ->
    mbNonVoid this = false ->
    (mChildren this ++ children)%list <> [] ->
    let built := appends this children in
    mChildren built = (mChildren this ++ children)%list
    /\ toString_ s built i = s ++ tag_lines built i.
Proof.
  intros this children i s Hname Hcontent Hvoid Hchildren built.
  unfold built. rewrite appends_eq. split; [reflexivity|].
  rewrite toString_named by exact Hname.
  unfold tag_lines, open_end, open_tag, close_tag.
  cbn [mName mContent mAttributes mChildren mbNonVoid].
  rewrite Hcontent, Hvoid.
  destruct (mChildren this ++ children)%list as [|c cs]; [contradiction|].
  cbn [empty vempty negb orb]. simpl. now rewrite !sapp_assoc.
Qed.

Lemma C2_witness :
  let this := Element_c "div" None in
  let children := [Paragraph "A"; Paragraph "B"] in
  mName this <> EmptyString
  /\ mContent this = EmptyString
  /\ mbNonVoid this = false
  /\ (mChildren this ++ children)%list <> []
  /\ toString_ EmptyString (appends this children) 0
     = "<div>" ++ nl ++ "  <p>A</p>" ++ nl ++ "  <p>B</p>" ++ nl
       ++ "</div>" ++ nl.
Proof.
  intros this children.
  assert (mName this <> EmptyString) as H1 by discriminate.
  assert ((mChildren this ++ children)%list <> []) as H4 by discriminate.
  split; [exact H1|]. split; [reflexivity|]. split; [reflexivity|].
  split; [exact H4|].
  exact (proj2 (C2_children_between_tag_lines
                  this children 0 EmptyString H1 eq_refl eq_refl H4)).
Defined.

(** C2 as stated fails on a table cell with a child, whose opening tag
    is not followed by a newline, and on an unnamed element with a
    child, which renders its content line only. *)
Lemma C2_counterexample :
  let cell := append (Col None) Break in
  let text := append (Text EmptyString) Break in
  (mChildren cell <> [] /\ mContent cell = EmptyString
   /\ toString_ EmptyString cell 0 = "<td>  <br/>" ++ nl ++ "</td>" ++ nl
   /\ ~ renders_as_tag_lines cell 0)
  /\ (mChildren text <> [] /\ mContent text = EmptyString
      /\ toString_ EmptyString text 0 = nl
      /\ ~ renders_as_tag_lines text 0).
Proof.
  unfold renders_as_tag_lines.
  repeat split; try discriminate; vm_compute; discriminate.
Qed.

(** C3, as amended. A named element with content and children writes
    the content right after the [>] of the opening tag, then the blocks
    of the children in order at the raised indentation, the first one
    on the line of the content, each block ending its line, and then
    the closing tag line. *)
Theorem C3_content_then_children :
  forall (this : Element) (i : N) (s : ostream),
    mName this <> EmptyString ->
    mContent this <> EmptyString ->
    mChildren this <> [] ->
    toString_ s this i
    = s ++ indent i ++ open_tag this ++ ">" ++ mContent this
        ++ blocks (mChildren this) (size_add i HTML_INDENTATION)
        ++ indent i ++ close_tag this
    /\ forall child,
         In child (mChildren this) ->
         exists b,
           toString_ EmptyString child (size_add i HTML_INDENTATION)
           = b ++ nl.
Proof.
  intros this i s Hname Hcontent Hchildren. split.
  - rewrite toString_named by exact Hname. unfold open_end.
    apply empty_false in Hcontent. rewrite Hcontent.
    destruct (mChildren this) as [|c cs]; [contradiction|].
    cbn [vempty negb orb]. reflexivity.
  - intros child _. apply toString_ends_line.
Qed.

Lemma C3_witness :
  let this := append (Div "Hello") (Paragraph "A") in
  mName this <> EmptyString
  /\ mContent this <> EmptyString
  /\ mChildren this <> []
  /\ toString_ EmptyString this 0
     = "<div>Hello  <p>A</p>" ++ nl ++ "</div>" ++ nl.
Proof.
  intros this.
  assert (mName this <> EmptyString) as H1 by discriminate.
  assert (mContent this <> EmptyString) as H2 by discriminate.
  assert (mChildren this <> []) as H3 by discriminate.
  split; [exact H1|]. split; [exact H2|]. split; [exact H3|].
  exact (proj1 (C3_content_then_children this 0 EmptyString H1 H2 H3)).
Defined.

(** C3 as stated fails: the first child follows the content on the line
    of the opening tag, so it is not on a line of its own. *)
Lemma C3_counterexample :
  let this := append (Div "Hello") (Paragraph "A") in
  mContent this <> EmptyString
  /\ mChildren this <> []
  /\ toString_ EmptyString this 0
     = "<div>Hello  <p>A</p>" ++ nl ++ "</div>" ++ nl
  /\ ~ children_on_own_lines this 0.
Proof.
  repeat split; try discriminate.
  intros H. specialize (H (Paragraph "A") (or_introl eq_refl)).
  apply on_own_line_at_line_start in H. vm_compute in H. discriminate.
Qed.

(** C4. A named element with no content, no children and the non-void
    flag clear renders as one line: the indentation, [<], the name, the
    attributes, [/>] and a newline; no closing tag is written. *)
Theorem C4_void_element_self_closes :
  forall (this : Element) (i : N) (s : ostream),
    mName this <> EmptyString ->
    mContent this = EmptyString ->
    mChildren this = [] ->
    mbNonVoid this = false ->
    toString_ s this i = s ++ indent i ++ open_tag this ++ "/>" ++ nl.
Proof.
  intros this i s Hname Hcontent Hchildren Hvoid.
  rewrite toString_named by exact Hname.
  unfold open_end, blocks. rewrite Hcontent, Hchildren, Hvoid.
  simpl. rewrite ?sapp_nil_r. reflexivity.
Qed.

Lemma C4_witness :
  mName Break <> EmptyString
  /\ mContent Break = EmptyString
  /\ mChildren Break = []
  /\ mbNonVoid Break = false
  /\ toString_ EmptyString Break 0 = "<br/>" ++ nl.
Proof.
  assert (mName Break <> EmptyString) as H1 by discriminate.
  split; [exact H1|]. split; [reflexivity|]. split; [reflexivity|].
  split; [reflexivity|].
  exact (C4_void_element_self_closes Break 0 EmptyString
           H1 eq_refl eq_refl eq_refl).
Defined.

(** C5. A non-void element with no content and no children renders the
    opening tag and the closing tag on one line, with nothing between
    them, and one newline after the closing tag. *)
Theorem C5_non_void_element_closes_on_the_line :
  forall (this : Element) (i : N) (s : ostream),
    Constructed this ->
    mbNonVoid this = true ->
    mContent this = EmptyString ->
    mChildren this = [] ->
    toString_ s this i
    = s ++ indent i ++ open_tag this ++ ">" ++ "</" ++ mName this ++ ">" ++ nl.
Proof.
  intros this i s Hc Hvoid Hcontent Hchildren.
  pose proof (Constructed_non_void_named _ Hc Hvoid) as Hname.
  rewrite toString_named by exact Hname.
  unfold open_end, blocks, close_tag. rewrite Hcontent, Hchildren, Hvoid.
  simpl. reflexivity.
Qed.

Lemma C5_witness :
  Constructed (Col None)
  /\ mbNonVoid (Col None) = true
  /\ mContent (Col None) = EmptyString
  /\ mChildren (Col None) = []
  /\ toString_ EmptyString (Col None) 0 = "<td></td>" ++ nl.
Proof.
  assert (Constructed (Col None)) as Hc.
  { apply Constructed_non_void; [apply Constructed_Element|].
    right. left. reflexivity. }
  split; [exact Hc|]. split; [reflexivity|]. split; [reflexivity|].
  split; [reflexivity|].
  exact (C5_non_void_element_closes_on_the_line (Col None) 0 EmptyString
           Hc eq_refl eq_refl eq_refl).
Defined.

(** C6. A named element with content and no children renders on one
    line: the opening tag ended by [>], the content as it is, the
    closing tag and a newline. *)
Theorem C6_content_inline :
  forall (this : Element) (i : N) (s : ostream),
    mName this <> EmptyString ->
    mContent this <> EmptyString ->
    mChildren this = [] ->
    toString_ s this i
    = s ++ indent i ++ open_tag this ++ ">" ++ mContent this
        ++ "</" ++ mName this ++ ">" ++ nl.
Proof.
  intros this i s Hname Hcontent Hchildren.
  rewrite toString_named by exact Hname.
  unfold open_end, blocks, close_tag. rewrite Hchildren.
  apply empty_false in Hcontent. rewrite Hcontent. simpl. reflexivity.
Qed.

Lemma C6_witness :
  mName (Paragraph "Hello") <> EmptyString
  /\ mContent (Paragraph "Hello") <> EmptyString
  /\ mChildren (Paragraph "Hello") = []
  /\ toString (Paragraph "Hello") = "<p>Hello</p>" ++ nl.
Proof.
  assert (mName (Paragraph "Hello") <> EmptyString) as H1 by discriminate.
  assert (mContent (Paragraph "Hello") <> EmptyString) as H2 by discriminate.
  split; [exact H1|]. split; [exact H2|]. split; [reflexivity|].
  exact (C6_content_inline (Paragraph "Hello") 0 EmptyString H1 H2 eq_refl).
Defined.

(** C7. An unnamed element renders as the indentation, its content as
    it is, and a newline: no tag and no attribute is written and no
    character of the content is changed. *)
Theorem C7_text_leaf :
  forall (this : Element) (i : N) (s : ostream),
    mName this = EmptyString ->
    toString_ s this i = s ++ indent i ++ mContent this ++ nl.
Proof.
  intros this i s Hname. now apply toString_unnamed.
Qed.

Lemma C7_witness :
  mName (Text "a < b & c") = EmptyString
  /\ toString_ EmptyString (Text "a < b & c") 4 = "    a < b & c" ++ nl.
Proof.
  split; [reflexivity|].
  exact (C7_text_leaf (Text "a < b & c") 4 EmptyString eq_refl).
Defined.

(** C9. The constructor reserved for the root yields the element named
    html, without content or attributes, whose children are exactly
    two: first the element named head, then the element named body,
    each without content, attributes or children. *)
Theorem C9_root_has_head_then_body :
  mName Element_root = "html"
  /\ mContent Element_root = EmptyString
  /\ mAttributes Element_root = []
  /\ mbNonVoid Element_root = false
  /\ List.length (mChildren Element_root) = 2%nat
  /\ map mName (mChildren Element_root) = ["head"; "body"]
  /\ map mContent (mChildren Element_root) = [EmptyString; EmptyString]
  /\ map mAttributes (mChildren Element_root) = [[]; []]
  /\ map mChildren (mChildren Element_root) = [[]; []]
  /\ map mbNonVoid (mChildren Element_root) = [false; false]
  /\ toString Element_root
     = "<html>" ++ nl ++ "  <head/>" ++ nl ++ "  <body/>" ++ nl
       ++ "</html>" ++ nl.
Proof. repeat split. Qed.

(** C10. Whatever attributes are set on an unnamed element and whatever
    is appended to it, it renders as the indentation, its content and a
    newline: neither the attributes nor the children are written. *)
Theorem C10_unnamed_element_drops_attributes_and_children :
  forall (this : Element) (calls : list BuilderCall) (i : N) (s : ostream),
    mName this = EmptyString ->
    toString_ s (chain this calls) i = s ++ indent i ++ mContent this ++ nl.
Proof.
  intros this calls i s Hname.
  rewrite toString_unnamed by (now rewrite chain_mName).
  now rewrite chain_mContent.
Qed.

Lemma C10_witness :
  let calls := [CallAddAttribute "id" "x"; CallAppend Break;
                CallAppendText "more"; CallAddAttributeUint "n" 7] in
  mName (Text "hi") = EmptyString
  /\ mAttributes (chain (Text "hi") calls) = [("id", "x"); ("n", "7")]
  /\ mChildren (chain (Text "hi") calls) = [Break; Text "more"]
  /\ toString_ EmptyString (chain (Text "hi") calls) 2 = "  hi" ++ nl.
Proof.
  intros calls.
  split; [reflexivity|]. split; [reflexivity|]. split; [reflexivity|].
  exact (C10_unnamed_element_drops_attributes_and_children
           (Text "hi") calls 2 EmptyString eq_refl).
Defined.

(** ** Type-gated containers *)

Section Gates.

Import Cpp.

(** Written on a head, [operator<<] compiles for an rvalue of the six
    accepted classes and of no other class, and yields a head again. *)
Lemma Head_gate (k : Class) :
  shl_type CHead (ONode k)
  = if member k (accepted CHead) then Some CHead else None.
Proof. destruct k; reflexivity. Qed.

(** Written on a row, it compiles for the two column classes only and
    yields a row again. *)
Lemma Row_gate (k : Class) :
  shl_type CRow (ONode k)
  = if member k (accepted CRow) then Some CRow else None.
Proof. destruct k; reflexivity. Qed.

(** Written on a table, it compiles for a row only, and what it yields
    has the static type of the base class. *)
Lemma Table_gate (k : Class) :
  shl_type CTable (ONode k)
  = if member k (accepted CTable) then Some CElement else None.
Proof. destruct k; reflexivity. Qed.

(** The text overloads of the base class are hidden in all three. *)
Lemma gate_text (c : Class) :
  In c [CHead; CRow; CTable] -> shl_type c OText = None.
Proof. simpl. intuition (subst; reflexivity). Qed.

(** Every other class takes any element and any text. *)
Lemma open_append (c k : Class) :
  ~ In c [CHead; CRow; CTable] ->
  shl_type c (ONode k) = Some CElement /\ shl_type c OText = Some CElement.
Proof.
  intros Hc.
  destruct c; try (exfalso; apply Hc; simpl; tauto);
    destruct k; split; reflexivity.
Qed.

(** After an attribute setter the static type is that of the base
    class, and the gate of a row no longer applies. *)
Lemma setter_drops_the_gate :
  type_of (Shl (AddAttribute (New CRow Row) "class" "odd")
               (New CParagraph (Paragraph "x")))
  = Some CElement.
Proof. reflexivity. Qed.

(** C8. Appending a paragraph to a table is rejected when written on
    the table itself, and on a head after a first append; written
    after a first append to the table it compiles, and the table gets
    the paragraph as its second child. *)
Theorem C8_table_chain_takes_a_paragraph :
  let table_row := Shl (New CTable Table) (New CRow Row) in
  let head_title := Shl (New CHead Head) (New CTitle (Title "t")) in
  let p := New CParagraph (Paragraph "x") in
  type_of (Shl (New CTable Table) p) = None
  /\ type_of (Shl head_title p) = None
  /\ type_of table_row = Some CElement
  /\ type_of (Shl table_row p) = Some CElement
  /\ mName (value (Shl table_row p)) = "table"
  /\ mChildren (value (Shl table_row p)) = [Row; Paragraph "x"]
  /\ toString (value (Shl table_row p))
     = "<table>" ++ nl ++ "  <tr/>" ++ nl ++ "  <p>x</p>" ++ nl
       ++ "</table>" ++ nl.
Proof. repeat split. Qed.

End Gates.

(** * Further properties of the code *)

(** ** Streams and blocks *)

(** X2. Whatever the element, what it adds to the stream is its
    indentation, a body and a final newline. *)
Theorem X2_block_is_indentation_body_newline :
  forall (this : Element) (i : N) (s : ostream),
    exists body, toString_ s this i = s ++ indent i ++ body ++ nl.
Proof.
  intros this i s.
  destruct (empty (mName this)) eqn:Hname.
  - apply empty_true in Hname. exists (mContent this).
    now apply toString_unnamed.
  - apply empty_false in Hname. rewrite (toString_named _ _ _ Hname).
    destruct (negb (empty (mContent this)) || negb (vempty (mChildren this))
              || mbNonVoid this) eqn:Hclose.
    + unfold close_tag.
      exists (open_tag this ++ open_end this ++ mContent this
              ++ blocks (mChildren this) (size_add i HTML_INDENTATION)
              ++ (if vempty (mChildren this) then EmptyString else indent i)
              ++ "</" ++ mName this ++ ">").
      rewrite !sapp_assoc. reflexivity.
    + apply orb_false_elim in Hclose as [Hclose Hvoid].
      apply orb_false_elim in Hclose as [Hcontent Hchildren].
      apply negb_false_iff in Hcontent, Hchildren.
      unfold open_end. rewrite Hcontent, Hvoid, Hchildren. cbn [negb].
      apply empty_true in Hcontent. rewrite Hcontent.
      destruct (mChildren this); [|discriminate].
      exists (open_tag this ++ "/>").
      unfold blocks. simpl. rewrite ?sapp_nil_r, ?sapp_assoc. reflexivity.
Qed.

(** X3. A named element that has content, has children or is non-void
    is never self-closed: its opening tag ends with [>] and its text
    ends with the closing tag and a newline. *)
Theorem X3_closing_tag_is_written :
  forall (this : Element) (i : N) (s : ostream),
    mName this <> EmptyString ->
    mContent this <> EmptyString \/ mChildren this <> []
    \/ mbNonVoid this = true ->
    exists mid,
      toString_ s this i
      = s ++ indent i ++ open_tag this ++ ">" ++ mid ++ close_tag this.
Proof.
  intros this i s Hname Hsome.
  rewrite (toString_named _ _ _ Hname).
  assert (negb (empty (mContent this)) || negb (vempty (mChildren this))
          || mbNonVoid this = true) as Hclose.
  { destruct Hsome as [H|[H|H]].
    - apply empty_false in H. now rewrite H.
    - destruct (mChildren this); [contradiction|].
      simpl. now rewrite orb_true_r.
    - rewrite H. now rewrite orb_true_r. }
  rewrite Hclose.
  assert (exists rest, open_end this = ">" ++ rest) as [rest Hrest].
  { clear Hclose. unfold open_end.
    destruct (empty (mContent this)) eqn:Hc; [|now exists EmptyString].
    destruct (mbNonVoid this) eqn:Hv; [now exists EmptyString|].
    destruct (mChildren this) eqn:Hch; [|now exists nl].
    exfalso. apply empty_true in Hc.
    destruct Hsome as [H|[H|H]]; congruence. }
  rewrite Hrest.
  exists (rest ++ mContent this
          ++ blocks (mChildren this) (size_add i HTML_INDENTATION)
          ++ (if vempty (mChildren this) then EmptyString else indent i)).
  rewrite !sapp_assoc. reflexivity.
Qed.

Lemma X3_witness :
  mName (Option_ "v" None) <> EmptyString
  /\ (mContent (Option_ "v" None) <> EmptyString
      \/ mChildren (Option_ "v" None) <> []
      \/ mbNonVoid (Option_ "v" None) = true)
  /\ exists mid,
       toString_ EmptyString (Option_ "v" None) 0
       = EmptyString ++ indent 0 ++ open_tag (Option_ "v" None) ++ ">"
           ++ mid ++ close_tag (Option_ "v" None).
Proof.
  assert (mName (Option_ "v" None) <> EmptyString) as H1 by discriminate.
  assert (mContent (Option_ "v" None) <> EmptyString
          \/ mChildren (Option_ "v" None) <> []
          \/ mbNonVoid (Option_ "v" None) = true) as H2
    by (right; right; reflexivity).
  split; [exact H1|]. split; [exact H2|].
  exact (X3_closing_tag_is_written (Option_ "v" None) 0 EmptyString H1 H2).
Defined.

(** ** Text children *)

Section TextChildren.



End TextChildren.



(** ** Lines of the output *)

Section LineCount.

Lemma nl_count_app (a b : string) :
  nl_count (a ++ b) = (nl_count a + nl_count b)%nat.
Proof.
  induction a as [|c a IH]; [reflexivity|].
  cbn [String.append nl_count]. rewrite IH. lia.
Qed.

Lemma nl_count_indent (i : N) : nl_count (indent i) = 0%nat.
Proof.
  unfold indent, replicate. induction i as [|i IH] using N.peano_ind.
  - reflexivity.
  - rewrite N.iter_succ. cbn [nl_count]. rewrite IH. reflexivity.
Qed.

Lemma nl_count_concat (l : list string) :
  nl_count (String.concat EmptyString l) = list_sum (map nl_count l).
Proof.
  induction l as [|x l IH]; [reflexivity|].
  rewrite concat_nil_cons, nl_count_app, IH. reflexivity.
Qed.

Lemma one_line_true (s : string) : one_line s = true -> nl_count s = 0%nat.
Proof. unfold one_line. apply Nat.eqb_eq. Qed.

Lemma nl_count_attrs (attrs : StdMap.t) :
  forallb (fun a => one_line (fst a) && one_line (snd a)) attrs = true ->
  nl_count (attrs_text attrs) = 0%nat.
Proof.
  unfold attrs_text. rewrite nl_count_concat.
  induction attrs as [|[k v] attrs IH]; [reflexivity|].
  cbn [forallb fst snd]. intros H.
  apply andb_true_iff in H as [Hkv Hrest].
  apply andb_true_iff in Hkv as [Hk Hv].
  apply one_line_true in Hk, Hv.
  change (list_sum (map nl_count (map attr_text ((k, v) :: attrs))))
    with (nl_count (attr_text (k, v))
          + list_sum (map nl_count (map attr_text attrs)))%nat.
  rewrite (IH Hrest).
  unfold attr_text. cbn [fst snd].
  destruct (empty v); cbn [nl_count String.append];
    rewrite ?nl_count_app, ?Hk, ?Hv; reflexivity.
Qed.

Lemma plain_unfold name content attrs children nonvoid :
  plain (Build_Element name content attrs children nonvoid)
  = one_line name && one_line content
    && forallb (fun a => one_line (fst a) && one_line (snd a)) attrs
    && forallb plain children.
Proof. reflexivity. Qed.

Lemma line_count_unfold name content attrs children nonvoid :
  line_count (Build_Element name content attrs children nonvoid)
  = if empty name then 1%nat
    else (list_sum (map line_count children)
          + (if empty content && negb nonvoid then 1 else 0)
          + (if negb (empty content) || negb (vempty children) || nonvoid
             then 1 else 0))%nat.
Proof. reflexivity. Qed.

Lemma nl_count_blocks (children : list Element) (j : N) :
  Forall (fun c => plain c = true ->
                   forall i, nl_count (toString_ EmptyString c i)
                             = line_count c) children ->
  forallb plain children = true ->
  nl_count (blocks children j) = list_sum (map line_count children).
Proof.
  unfold blocks. rewrite nl_count_concat, map_map.
  induction 1 as [|c cs Hc _ IH]; [reflexivity|].
  cbn [forallb]. intros H.
  apply andb_true_iff in H as [Hp Hrest].
  cbn [map]. change (list_sum (?x :: ?l)) with (x + list_sum l)%nat.
  rewrite (Hc Hp), (IH Hrest). reflexivity.
Qed.

Lemma nl_count_plain (this : Element) :
  plain this = true ->
  forall i, nl_count (toString_ EmptyString this i) = line_count this.
Proof.
  induction this as [name content attrs children nonvoid IH]
    using Element_children_ind.
  rewrite plain_unfold, line_count_unfold. intros Hplain i.
  apply andb_true_iff in Hplain as [Hplain Hchildren].
  apply andb_true_iff in Hplain as [Hplain Hattrs].
  apply andb_true_iff in Hplain as [Hname Hcontent].
  apply one_line_true in Hname, Hcontent.
  destruct (empty name) eqn:Hempty.
  - apply empty_true in Hempty.
    rewrite toString_unnamed by exact Hempty. cbn [mContent].
    rewrite !nl_count_app, nl_count_indent, Hcontent. reflexivity.
  - apply empty_false in Hempty.
    rewrite toString_named by exact Hempty.
    unfold open_tag, open_end, close_tag.
    cbn [mName mContent mAttributes mChildren mbNonVoid].
    rewrite !nl_count_app, nl_count_indent, Hname, Hcontent.
    rewrite (nl_count_attrs _ Hattrs), (nl_count_blocks _ _ IH Hchildren).
    destruct (empty content), nonvoid, children as [|c cs];
      cbn [vempty negb andb orb nl_count];
      rewrite ?nl_count_app, ?nl_count_indent, ?Hname; simpl; lia.
Qed.

End LineCount.

(** X5. When no name, content, attribute name or attribute value of
    the tree holds a newline, the text has one line for an unnamed
    element and, for a named one, the lines of its children, one more
    if the opening tag ends its line and one more if a closing tag is
    written; the indentation plays no part. *)
Theorem X5_lines_of_a_plain_tree :
  forall (this : Element) (i : N) (s : ostream),
    plain this = true ->
    nl_count (toString_ s this i) = (nl_count s + line_count this)%nat.
Proof.
  intros this i s Hplain.
  rewrite toString_frame, nl_count_app. f_equal.
  now apply nl_count_plain.
Qed.

Lemma X5_witness :
  let page :=
    appends (Div EmptyString)
      [Paragraph "A"; Break; append (Col None) (Text "cell"); Text "t"] in
  plain page = true
  /\ nl_count (toString_ EmptyString page 0) = 7%nat.
Proof.
  intros page.
  assert (plain page = true) as H by reflexivity.
  split; [exact H|].
  exact (X5_lines_of_a_plain_tree page 0 EmptyString H).
Defined.

(** ** The size of the attribute map *)

Section MapSize.

Import StdMap.

Lemma set_length (k v : string) (m : t) :
  ordered m ->
  List.length (set k v m)
  = match find k m with
    | Some _ => List.length m
    | None => S (List.length m)
    end.
Proof.
  unfold ordered.
  induction m as [|[k' v'] m IH]; intros Hm; [reflexivity|].
  inversion Hm as [|? ? Hm' Hall]; subst. cbn [set find].
  destruct (String.compare k k') eqn:Hc.
  - apply compare_eq in Hc. subst k'. now rewrite String.eqb_refl.
  - pose proof (key_lt_neq _ _ Hc) as Hne. apply String.eqb_neq in Hne.
    rewrite Hne, find_below; [reflexivity|].
    eapply Forall_impl; [|exact Hall].
    intros x Hx. unfold entry_lt in Hx. simpl in Hx.
    eapply key_lt_trans; eauto.
  - assert (k <> k') as Hne
      by (intros ->; rewrite compare_refl in Hc; discriminate).
    apply String.eqb_neq in Hne. rewrite Hne.
    cbn [List.length]. rewrite (IH Hm').
    destruct (find k m); reflexivity.
Qed.

Lemma ordered_NoDup (m : t) : ordered m -> NoDup (map fst m).
Proof.
  unfold ordered. induction 1 as [|[k v] m _ IH Hall]; [constructor|].
  cbn [map fst]. constructor; [|exact IH].
  intros Hin. apply in_map_iff in Hin as ([k' v'] & Hk & Hin).
  simpl in Hk. subst k'. rewrite Forall_forall in Hall.
  exact (key_lt_irrefl _ (Hall _ Hin)).
Qed.

End MapSize.

(** X6. On an element the header can build, setting an attribute that
    is present leaves the number of attributes as it was, and setting
    one that is absent adds exactly one. *)
Theorem X6_addAttribute_grows_by_at_most_one :
  forall (this : Element) (apName aValue : string),
    Constructed this ->
    List.length (mAttributes (addAttribute apName aValue this))
    = match StdMap.find apName (mAttributes this) with
      | Some _ => List.length (mAttributes this)
      | None => S (List.length (mAttributes this))
      end.
Proof.
  intros this apName aValue Hc. cbn [addAttribute mAttributes].
  apply set_length. now apply Constructed_ordered.
Qed.

Lemma X6_witness :
  let this := Input (Some "text") (Some "x") None None in
  Constructed this
  /\ List.length (mAttributes (addAttribute "name" "y" this)) = 2%nat
  /\ List.length (mAttributes (addAttribute "id" "y" this)) = 3%nat.
Proof.
  intros this.
  assert (Constructed this) as Hc
    by (repeat apply Constructed_addAttribute; apply Constructed_Element).
  split; [exact Hc|]. split.
  - exact (X6_addAttribute_grows_by_at_most_one this "name" "y" Hc).
  - exact (X6_addAttribute_grows_by_at_most_one this "id" "y" Hc).
Defined.

(** ** Attributes given as numbers *)

(** Both sides of an equation between texts, brought to appends nested
    to the right. *)
Ltac text_normal :=
  unfold nl, dquote_s, eq_dquote;
  repeat (progress (rewrite ?sapp_assoc, ?sapp_nil_r; cbn [String.append])).

Section Numbers.

Lemma string_of_uint_nonempty (d : Decimal.uint) :
  d <> Decimal.Nil -> NilEmpty.string_of_uint d <> EmptyString.
Proof. destruct d; simpl; intros H; congruence. Qed.

Lemma to_string_nonempty (n : N) : to_string n <> EmptyString.
Proof.
  unfold to_string. apply string_of_uint_nonempty.
  destruct n as [|p]; [discriminate|].
  apply DecimalPos.Unsigned.to_uint_nonnil.
Qed.

Lemma attr_text_uint (k : string) (n : N) :
  attr_text (k, to_string n)
  = String space k ++ eq_dquote ++ to_string n ++ dquote_s.
Proof.
  unfold attr_text. cbn [fst snd].
  pose proof (to_string_nonempty n) as H. apply empty_false in H.
  now rewrite H.
Qed.

Lemma spans_in_order (cols rows : string) :
  StdMap.set "colspan" cols (StdMap.set "rowspan" rows StdMap.empty)
  = [("colspan", cols); ("rowspan", rows)].
Proof. reflexivity. Qed.

End Numbers.

(** X7. An attribute given as an unsigned number is always written
    with a value, also for zero: the value is the decimal numeral of
    the number, which read back gives the number. *)
Theorem X7_unsigned_attribute_is_written_in_decimal :
  forall (apName aName : string) (aValue : N) (i : N) (s : ostream),
    apName <> EmptyString ->
    toString_ s (addAttribute_uint aName aValue
                   (Element_ apName EmptyString)) i
    = s ++ indent i ++ "<" ++ apName ++ String space aName
        ++ eq_dquote ++ to_string aValue ++ dquote_s ++ "/>" ++ nl
    /\ option_map N.of_uint (NilEmpty.uint_of_string (to_string aValue))
       = Some aValue.
Proof.
  intros apName aName aValue i s Hname. split.
  - rewrite toString_named by exact Hname.
    unfold open_tag, open_end, close_tag, blocks, attrs_text.
    cbn [addAttribute_uint addAttribute Element_ mName mContent mAttributes
         mChildren mbNonVoid StdMap.set StdMap.empty map String.concat
         empty vempty negb orb].
    rewrite attr_text_uint. text_normal. reflexivity.
  - unfold to_string. rewrite NilEmpty.usu. cbn [option_map].
    now rewrite DecimalN.Unsigned.of_to.
Qed.

Lemma X7_witness :
  "img" <> EmptyString
  /\ toString_ EmptyString
       (addAttribute_uint "width" 0 (Element_ "img" EmptyString)) 0
     = "<img width=" ++ dquote_s ++ "0" ++ dquote_s ++ "/>" ++ nl.
Proof.
  assert ("img" <> EmptyString) as H by discriminate.
  split; [exact H|].
  exact (proj1 (X7_unsigned_attribute_is_written_in_decimal
                  "img" "width" 0 0 EmptyString H)).
Defined.

(** X8. A table cell with its spans renders on one line as [td] with
    [colspan] before [rowspan], a span of zero being left out, then
    the content, if any, and always the closing tag. *)
Theorem X8_cell_with_spans :
  forall (apContent : cstr) (aNbRow aNbCol : N) (i : N) (s : ostream),
    toString_ s (colSpan aNbCol (rowSpan aNbRow (Col apContent))) i
    = s ++ indent i ++ "<td"
        ++ (if 0 <? aNbCol
            then " colspan=" ++ dquote_s ++ to_string aNbCol ++ dquote_s
            else EmptyString)
        ++ (if 0 <? aNbRow
            then " rowspan=" ++ dquote_s ++ to_string aNbRow ++ dquote_s
            else EmptyString)
        ++ ">"
        ++ match apContent with Some c => c | None => EmptyString end
        ++ "</td>" ++ nl.
Proof.
  intros apContent aNbRow aNbCol i s.
  assert (mName (colSpan aNbCol (rowSpan aNbRow (Col apContent)))
          <> EmptyString) as Hname
    by (unfold colSpan, rowSpan;
        destruct (0 <? aNbCol), (0 <? aNbRow); discriminate).
  rewrite toString_named by exact Hname.
  unfold colSpan, rowSpan, open_tag, open_end, close_tag, blocks, attrs_text.
  destruct (0 <? aNbCol), (0 <? aNbRow);
    cbn [addAttribute_uint addAttribute Col set_non_void Element_c Element_
         mName mContent mAttributes mChildren mbNonVoid];
    rewrite ?spans_in_order;
    cbn [StdMap.set StdMap.empty map String.concat vempty negb orb];
    rewrite ?attr_text_uint;
    destruct apContent as [[|c content]|];
    cbn [empty negb orb]; text_normal; reflexivity.
Qed.

(** ** The named setters *)

Section NamedSetters.

Lemma apply_all_addAttributes (calls : list (string * string))
  (this : Element) :
  apply_all (map (fun p => addAttribute (fst p) (snd p)) calls) this
  = addAttributes this calls.
Proof.
  revert this. induction calls as [|p calls IH]; intros this; [reflexivity|].
  unfold apply_all, addAttributes in *. cbn [map fold_left]. now rewrite IH.
Qed.

(** Chains that set the same names, each once, build the same map. *)
Lemma sets_Permutation (m : StdMap.t) (calls calls' : list (string * string)) :
  StdMap.ordered m ->
  Permutation calls calls' -> NoDup (map fst calls) ->
  sets m calls' = sets m calls.
Proof.
  intros Hm Hp Hnd. apply ordered_ext; try now apply sets_ordered.
  intros k. rewrite !sets_find.
  now rewrite (last_set_Permutation _ _ Hp Hnd k).
Qed.

End NamedSetters.

(** X9. The setters [id], [cls], [title] and [style], called once each
    in any order on an element without attributes, leave the attributes
    in the order class, id, style, title, and a named element is
    rendered with them in that order. *)
Theorem X9_named_setters_in_any_order :
  forall (this : Element) (calls : list (Element -> Element))
         (a b c d : string),
    mAttributes this = StdMap.empty ->
    Permutation calls
      [Setters.id a; Setters.cls b; Setters.title c; Setters.style d] ->
    mAttributes (apply_all calls this)
    = [("class", b); ("id", a); ("style", d); ("title", c)]
    /\ forall s i,
         mName this <> EmptyString ->
         toString_ s (apply_all calls this) i
         = s ++ indent i ++ "<" ++ mName this
             ++ attr_text ("class", b) ++ attr_text ("id", a)
             ++ attr_text ("style", d) ++ attr_text ("title", c)
             ++ after_attributes this i.
Proof.
  intros this calls a b c d Hempty Hp.
  change [Setters.id a; Setters.cls b; Setters.title c; Setters.style d]
    with (map (fun p => addAttribute (fst p) (snd p))
              [("id", a); ("class", b); ("title", c); ("style", d)]) in Hp.
  apply Permutation_map_inv in Hp as (pairs & -> & Hp).
  rewrite apply_all_addAttributes, addAttributes_eq. cbn [mAttributes].
  rewrite Hempty. unfold StdMap.empty.
  rewrite (sets_Permutation _ _ _ (SSorted_nil _) Hp).
  - split; [reflexivity|]. intros s i Hname.
    rewrite toString_after_attributes by exact Hname.
    cbn [mName mAttributes]. unfold attrs_text.
    change (sets [] [("id", a); ("class", b); ("title", c); ("style", d)])
      with [("class", b); ("id", a); ("style", d); ("title", c)].
    cbn [map]. rewrite !concat_nil_cons. cbn [String.concat].
    rewrite sapp_nil_r, !sapp_assoc. reflexivity.
  - cbn [map fst].
    repeat constructor; simpl; intuition discriminate.
Qed.

Lemma X9_witness :
  let this := Element_ "div" EmptyString in
  let calls := [Setters.cls "b"; Setters.id "a"; Setters.title "c";
                Setters.style "d"] in
  mAttributes this = StdMap.empty
  /\ Permutation calls
       [Setters.id "a"; Setters.cls "b"; Setters.title "c";
        Setters.style "d"]
  /\ mAttributes (apply_all calls this)
     = [("class", "b"); ("id", "a"); ("style", "d"); ("title", "c")]
  /\ toString_ EmptyString (apply_all calls this) 0
     = "<div class=" ++ dquote_s ++ "b" ++ dquote_s
       ++ " id=" ++ dquote_s ++ "a" ++ dquote_s
       ++ " style=" ++ dquote_s ++ "d" ++ dquote_s
       ++ " title=" ++ dquote_s ++ "c" ++ dquote_s ++ "/>" ++ nl.
Proof.
  intros this calls.
  assert (Permutation calls
            [Setters.id "a"; Setters.cls "b"; Setters.title "c";
             Setters.style "d"]) as Hp by apply perm_swap.
  assert (mName this <> EmptyString) as Hname by discriminate.
  destruct (X9_named_setters_in_any_order this calls "a" "b" "c" "d"
              eq_refl Hp) as [Hmap Hrender].
  split; [reflexivity|]. split; [exact Hp|]. split; [exact Hmap|].
  exact (Hrender EmptyString 0 Hname).
Defined.

(** ** Chains of appends on a gated container *)

Section GatedChains.

Import Cpp.

Lemma shl_chain_snoc (e : Expr) (operands : list Expr) (x : Expr) :
  shl_chain e (operands ++ [x]) = Shl (shl_chain e operands) x.
Proof. unfold shl_chain. now rewrite fold_left_app. Qed.

End GatedChains.

(** X10. On a head and on a row the gate holds for every append of a
    chain: the chain compiles, with the class of the container as its
    static type, exactly when each operand is of an accepted class. *)
Theorem X10_head_and_row_gate_every_append :
  forall (c : Cpp.Class) (v : Element) (operands : list Cpp.Expr),
    c = Cpp.CHead \/ c = Cpp.CRow ->
    Cpp.type_of (shl_chain (Cpp.New c v) operands)
    = if forallb (accepted_operand c) operands then Some c else None.
Proof.
  intros c v operands Hc.
  induction operands as [|x operands IH] using rev_ind; [reflexivity|].
  rewrite shl_chain_snoc, forallb_app. cbn [Cpp.type_of forallb].
  rewrite IH, andb_true_r.
  destruct (forallb (accepted_operand c) operands); [|reflexivity].
  cbn [andb]. unfold accepted_operand.
  destruct (Cpp.type_of x) as [k|]; [|reflexivity].
  destruct Hc as [-> | ->]; [apply Head_gate | apply Row_gate].
Qed.

Lemma X10_witness :
  let good := [Cpp.New Cpp.CCol (Col None);
               Cpp.New Cpp.CColHeader (ColHeader None)] in
  let bad := [Cpp.New Cpp.CCol (Col None);
              Cpp.New Cpp.CParagraph (Paragraph "x");
              Cpp.New Cpp.CCol (Col None)] in
  (Cpp.CRow = Cpp.CHead \/ Cpp.CRow = Cpp.CRow)
  /\ Cpp.type_of (shl_chain (Cpp.New Cpp.CRow Row) good) = Some Cpp.CRow
  /\ Cpp.type_of (shl_chain (Cpp.New Cpp.CRow Row) bad) = None.
Proof.
  intros good bad.
  assert (Cpp.CRow = Cpp.CHead \/ Cpp.CRow = Cpp.CRow) as H
    by (right; reflexivity).
  split; [exact H|]. split.
  - exact (X10_head_and_row_gate_every_append Cpp.CRow Row good H).
  - exact (X10_head_and_row_gate_every_append Cpp.CRow Row bad H).
Defined.

(** ** Attribute calls and appends do not interfere *)

Section NormalForm.

Lemma addAttributes_append (calls : list (string * string))
  (this aElement : Element) :
  addAttributes (append this aElement) calls
  = append (addAttributes this calls) aElement.
Proof. rewrite !addAttributes_eq. reflexivity. Qed.

End NormalForm.

(** X11. A chain of builder calls builds the element that the attribute
    calls of the chain alone, followed by its appends alone, build: how
    attribute calls and appends are interleaved does not matter. *)
Theorem X11_chain_is_attributes_then_children :
  forall (this : Element) (calls : list BuilderCall),
    chain this calls
    = appends (addAttributes this (attribute_calls calls)) (appended calls).
Proof.
  intros this calls. revert this.
  induction calls as [|c calls IH]; intros this; [reflexivity|].
  unfold chain in *. cbn [fold_left]. rewrite IH.
  unfold attribute_calls, appended. cbn [flat_map].
  destruct c as [k v | k n | e | t]; cbn [call attribute_call appended_child
                                         List.app];
    try reflexivity.
  - unfold append_text. rewrite addAttributes_append. reflexivity.
  - unfold append_text. rewrite addAttributes_append. reflexivity.
Qed.

(** ** Every node of a built tree *)

Section BuiltTrees.

Lemma Everywhere_inv (P : Element -> Prop) (this : Element) :
  Everywhere P this -> P this /\ Forall (Everywhere P) (mChildren this).
Proof. intros H. inversion H; subst. now split. Qed.

Lemma sound_node_fresh (apName aContent : string) :
  sound_node (Element_ apName aContent).
Proof.
  unfold sound_node. simpl. repeat split; try constructor; discriminate.
Qed.

End BuiltTrees.

(** X12. In a tree the header can build, every node at every depth has
    its attributes strictly ordered by name, no attribute name twice,
    and a name if it is non-void. *)
Theorem X12_every_node_of_a_built_tree_is_sound :
  forall this : Element, Constructed this -> Everywhere sound_node this.
Proof.
  induction 1 as [apName aContent | | this Hc IH Hin
                 | this apName aValue Hc IH | this aElement Hc IH Hc' IH'].
  - constructor; [apply sound_node_fresh | constructor].
  - constructor.
    + unfold sound_node. simpl. repeat split; try constructor; discriminate.
    + repeat constructor; apply sound_node_fresh.
  - apply Everywhere_inv in IH as [(Hord & Hnd & _) Hch].
    constructor; [|exact Hch]. unfold sound_node. cbn [set_non_void
      mAttributes mbNonVoid mName]. repeat split; try assumption.
    intros _ Hname. rewrite Hname in Hin. simpl in Hin.
    intuition discriminate.
  - apply Everywhere_inv in IH as [(Hord & Hnd & Hvoid) Hch].
    constructor; [|exact Hch]. unfold sound_node.
    cbn [addAttribute mAttributes mbNonVoid mName].
    pose proof (set_ordered apName aValue _ Hord) as Hord'.
    repeat split; [exact Hord' | now apply ordered_NoDup | exact Hvoid].
  - apply Everywhere_inv in IH as [Hnode Hch].
    constructor; [exact Hnode|].
    cbn [append mChildren]. apply Forall_app. split; [exact Hch|].
    constructor; [exact IH' | constructor].
Qed.

Lemma X12_witness :
  let page :=
    append (addAttribute "id" "t" Table)
           (append (addAttribute "class" "r" Row)
                   (addAttribute "id" "c" (addAttribute "class" "k"
                                             (Col None)))) in
  Constructed page /\ Everywhere sound_node page.
Proof.
  intros page.
  assert (Constructed page) as Hc.
  { repeat first
      [ apply Constructed_append
      | apply Constructed_addAttribute
      | apply Constructed_Element
      | apply Constructed_non_void; [|simpl; tauto] ]. }
  split; [exact Hc|].
  exact (X12_every_node_of_a_built_tree_is_sound page Hc).
Defined.

(** ** Where an attribute goes *)

Section Insertion.

Import StdMap.

Lemma ltb_lt (a b : string) : String.ltb a b = true <-> key_lt a b.
Proof.
  unfold String.ltb, key_lt. destruct (String.compare a b); split;
    congruence.
Qed.

Lemma ltb_irrefl (a : string) : String.ltb a a = false.
Proof. unfold String.ltb. now rewrite compare_refl. Qed.

Lemma ltb_asym (a b : string) : key_lt a b -> String.ltb b a = false.
Proof.
  intros H. unfold String.ltb. apply compare_gt_lt in H. now rewrite H.
Qed.

Lemma below_all_above (k : string) (m : t) :
  Forall (fun x => key_lt k (fst x)) m -> below k m = [] /\ above k m = m.
Proof.
  unfold below, above.
  induction 1 as [|[k' v'] m Hlt _ [IHb IHa]]; [now split|].
  cbn [filter fst]. simpl in Hlt.
  rewrite (ltb_asym _ _ Hlt), (proj2 (ltb_lt _ _) Hlt), IHb, IHa.
  now split.
Qed.

(** Assignment splits an ordered map around the key. *)
Lemma set_split (k v : string) (m : t) :
  ordered m -> set k v m = (below k m ++ (k, v) :: above k m)%list.
Proof.
  unfold ordered.
  induction m as [|[k' v'] m IH]; intros Hm; [reflexivity|].
  inversion Hm as [|? ? Hm' Hall]; subst. cbn [set].
  destruct (String.compare k k') eqn:Hc.
  - apply compare_eq in Hc. subst k'.
    destruct (below_all_above k m Hall) as [Hb Ha].
    unfold below, above in *. cbn [filter fst].
    now rewrite ltb_irrefl, Hb, Ha.
  - assert (Forall (fun x => key_lt k (fst x)) ((k', v') :: m)) as Hk.
    { constructor; [exact Hc|].
      eapply Forall_impl; [|exact Hall].
      intros x Hx. unfold entry_lt in Hx. simpl in Hx.
      eapply key_lt_trans; eauto. }
    destruct (below_all_above k _ Hk) as [Hb Ha]. now rewrite Hb, Ha.
  - apply compare_gt_lt in Hc. rewrite (IH Hm').
    unfold below, above. cbn [filter fst].
    now rewrite (proj2 (ltb_lt _ _) Hc), (ltb_asym _ _ Hc).
Qed.

Lemma attrs_text_app (m1 m2 : t) :
  attrs_text (m1 ++ m2)%list = attrs_text m1 ++ attrs_text m2.
Proof.
  unfold attrs_text. induction m1 as [|a m1 IH]; [reflexivity|].
  rewrite <- app_comm_cons. cbn [map].
  rewrite !concat_nil_cons, IH. now rewrite sapp_assoc.
Qed.

End Insertion.

(** X13. On an element the header can build, [addAttribute] keeps every
    other attribute with its value and place: the map becomes the
    entries with a smaller name, the new entry, and the entries with a
    greater name, and a named element is rendered with its attributes
    in exactly that sequence. *)
Theorem X13_addAttribute_keeps_the_other_attributes :
  forall (this : Element) (apName aValue : string),
    Constructed this ->
    mAttributes (addAttribute apName aValue this)
    = (below apName (mAttributes this)
       ++ (apName, aValue) :: above apName (mAttributes this))%list
    /\ forall s i,
         mName this <> EmptyString ->
         toString_ s (addAttribute apName aValue this) i
         = s ++ indent i ++ "<" ++ mName this
             ++ attrs_text (below apName (mAttributes this))
             ++ attr_text (apName, aValue)
             ++ attrs_text (above apName (mAttributes this))
             ++ after_attributes this i.
Proof.
  intros this apName aValue Hc.
  pose proof (set_split apName aValue _ (Constructed_ordered _ Hc)) as Hs.
  split; [exact Hs|]. intros s i Hname.
  rewrite toString_after_attributes by exact Hname.
  cbn [addAttribute mName mAttributes]. rewrite Hs, attrs_text_app.
  unfold attrs_text at 2. cbn [map]. rewrite concat_nil_cons.
  fold (attrs_text (above apName (mAttributes this))).
  rewrite !sapp_assoc. reflexivity.
Qed.

Lemma X13_witness :
  let this := Input (Some "text") (Some "x") (Some "v") None in
  Constructed this
  /\ mAttributes (addAttribute "size" "9" this)
     = [("name", "x"); ("size", "9"); ("type", "text"); ("value", "v")]
  /\ mAttributes (addAttribute "type" "date" this)
     = [("name", "x"); ("type", "date"); ("value", "v")]
  /\ toString_ EmptyString (addAttribute "type" "date" this) 0
     = "<input name=" ++ dquote_s ++ "x" ++ dquote_s
       ++ " type=" ++ dquote_s ++ "date" ++ dquote_s
       ++ " value=" ++ dquote_s ++ "v" ++ dquote_s ++ "/>" ++ nl.
Proof.
  intros this.
  assert (Constructed this) as Hc
    by (repeat apply Constructed_addAttribute; apply Constructed_Element).
  assert (mName this <> EmptyString) as Hname by discriminate.
  split; [exact Hc|]. split.
  - exact (proj1 (X13_addAttribute_keeps_the_other_attributes
                    this "size" "9" Hc)).
  - split.
    + exact (proj1 (X13_addAttribute_keeps_the_other_attributes
                      this "type" "date" Hc)).
    + exact (proj2 (X13_addAttribute_keeps_the_other_attributes
                      this "type" "date" Hc) EmptyString 0 Hname).
Defined.

(** ** Appending to an element that has children *)

Section Appending.

Lemma blocks_app (cs1 cs2 : list Element) (j : N) :
  blocks (cs1 ++ cs2)%list j = blocks cs1 j ++ blocks cs2 j.
Proof.
  unfold blocks. induction cs1 as [|c cs1 IH]; [reflexivity|].
  rewrite <- app_comm_cons. cbn [map].
  rewrite !concat_nil_cons, IH. now rewrite sapp_assoc.
Qed.

End Appending.

(** X14. Appending to a named element that already has children puts
    the block of the new child right before the closing tag line and
    changes nothing else of the text. *)
Theorem X14_append_adds_the_last_block :
  forall (this aElement : Element) (i : N),
    mName this <> EmptyString ->
    mChildren this <> [] ->
    exists before,
      toString_ EmptyString this i = before ++ indent i ++ close_tag this
      /\ toString_ EmptyString (append this aElement) i
         = before
           ++ toString_ EmptyString aElement (size_add i HTML_INDENTATION)
           ++ indent i ++ close_tag this.
Proof.
  intros this aElement i Hname Hchildren.
  exists (indent i ++ open_tag this ++ open_end this ++ mContent this
          ++ blocks (mChildren this) (size_add i HTML_INDENTATION)).
  rewrite !toString_named by exact Hname.
  unfold open_end, open_tag, close_tag.
  cbn [append mName mContent mAttributes mChildren mbNonVoid].
  rewrite blocks_app.
  destruct (mChildren this) as [|c cs]; [contradiction|].
  rewrite <- app_comm_cons. cbn [vempty negb]. rewrite !orb_true_r.
  unfold blocks at 4. cbn [map]. rewrite concat_nil_cons.
  cbn [String.concat]. split; text_normal; reflexivity.
Qed.

Lemma X14_witness :
  let this := append (Div EmptyString) (Paragraph "A") in
  mName this <> EmptyString
  /\ mChildren this <> []
  /\ exists before,
       toString_ EmptyString this 0 = before ++ indent 0 ++ close_tag this
       /\ toString_ EmptyString (append this Break) 0
          = before
            ++ toString_ EmptyString Break (size_add 0 HTML_INDENTATION)
            ++ indent 0 ++ close_tag this.
Proof.
  intros this.
  assert (mName this <> EmptyString) as H1 by discriminate.
  assert (mChildren this <> []) as H2 by discriminate.
  split; [exact H1|]. split; [exact H2|].
  exact (X14_append_adds_the_last_block this Break 0 H1 H2).
Defined.
